(** * Federated EHR coordination core: a shallow embedding

    Sources embedded here:
    - [src/ai_ml/src/federated_ehr_ai.py]: [SecureEHRProcessor] (anonymisation),
      [FederatedEHRModel] (registry, federated averaging, training round);
    - [src/ai_ml/src/medical_imaging_security.py]: [MedicalImageEncryption]
      (per-image key derivation, encrypt / decrypt with integrity tag).

    Conventions.
    - A Python [str] is a Rocq [string]; its [.encode()] is the list of its bytes.
    - A Python exception is a constructor of [exn]; a call that may raise
      returns a [result].
    - Python objects that are mutated in place live in an explicit store. *)

From Stdlib Require Import ZArith QArith Qcanon Ascii String.
From Stdlib.Strings Require Import Byte.
From stdpp Require Import gmap strings list fin_maps pretty.

Local Open Scope string_scope.

(** ** Exceptions and results *)

Inductive exn : Type :=
  | TypeError
  | KeyError
  | IndexError
  | ZeroDivisionError
  | ValueError (msg : string)
  | BinasciiError.

Inductive result (A : Type) : Type :=
  | Ok (a : A)
  | Raise (e : exn).
Arguments Ok {A} a.
Arguments Raise {A} e.

Definition result_bind {A B} (r : result A) (k : A -> result B) : result B :=
  match r with
  | Ok a => k a
  | Raise e => Raise e
  end.

Definition is_ok {A} (r : result A) : bool :=
  match r with Ok _ => true | Raise _ => false end.

(** ** SecureEHRProcessor *)

Module SecureEHRProcessor.

(** The values an EHR dictionary holds in this model: [str], [int], [None]. *)
Inductive value : Type :=
  | VStr (s : string)
  | VInt (z : Z)
  | VNone.

#[global] Instance value_eq_dec : EqDecision value.
Proof. solve_decision. Defined.

#[global] Instance value_countable : Countable value.
Proof.
  refine (inj_countable'
    (fun v => match v with
              | VStr s => inl s
              | VInt z => inr (inl z)
              | VNone => inr (inr tt)
              end)
    (fun x => match x with
              | inl s => VStr s
              | inr (inl z) => VInt z
              | inr (inr _) => VNone
              end) _).
  by intros [].
Defined.

(** [f"{v}"] *)
Definition format (v : value) : string :=
  match v with
  | VStr s => s
  | VInt z => pretty z
  | VNone => "None"
  end.

Abbreviation dict := (gmap string value).
Abbreviation loc := nat.

(** The processor's world: the store of dictionaries and
    [self.anonymization_map]. *)
Record state : Type := {
  heap : gmap loc dict;
  anonymization_map : gmap value string
}.

Definition set_heap (h : gmap loc dict) (st : state) : state :=
  {| heap := h; anonymization_map := anonymization_map st |}.
Definition set_map (m : gmap value string) (st : state) : state :=
  {| heap := heap st; anonymization_map := m |}.

(** State and exception monad. The state survives an exception. *)
Definition M (A : Type) : Type := state -> state * result A.

Definition ret {A} (a : A) : M A := fun st => (st, Ok a).
Definition bind {A B} (m : M A) (k : A -> M B) : M B :=
  fun st => match m st with
            | (st1, Ok a) => k a st1
            | (st1, Raise e) => (st1, Raise e)
            end.
Definition raise {A} (e : exn) : M A := fun st => (st, Raise e).
Definition lift {A} (r : result A) : M A := fun st => (st, r).

Notation "'do' x <- m ; k" := (bind m (fun x => k))
  (at level 10, x name, m at level 100, k at level 200).
Notation "'do_' m ; k" := (bind m (fun _ => k))
  (at level 10, m at level 100, k at level 200).

Fixpoint for_each {A} (xs : list A) (body : A -> M unit) : M unit :=
  match xs with
  | [] => ret tt
  | x :: xs' => do_ body x; for_each xs' body
  end.

(** *** Dictionary primitives on the store *)

(** Apply [f] to the dictionary at [l]. A dangling reference cannot be built
    in Python; the model answers [TypeError] there. *)
Definition with_dict {A} (l : loc) (f : dict -> M A) : M A :=
  fun st => match heap st !! l with
            | Some d => f d st
            | None => (st, Raise TypeError)
            end.

Definition store (l : loc) (d : dict) : M unit :=
  fun st => (set_heap (<[l := d]> (heap st)) st, Ok tt).

(** [d.copy()]: a new object with the same items. *)
Definition dict_copy (l : loc) : M loc :=
  with_dict l (fun d st =>
    let l' := fresh (dom (heap st)) in
    (set_heap (<[l' := d]> (heap st)) st, Ok l')).

(** [d.get(k, dflt)] *)
Definition dict_get (l : loc) (k : string) (dflt : value) : M value :=
  with_dict l (fun d => ret (default dflt (d !! k))).

(** [k in d] *)
Definition dict_contains (l : loc) (k : string) : M bool :=
  with_dict l (fun d => ret (bool_decide (is_Some (d !! k)))).

(** [d[k]] *)
Definition dict_getitem (l : loc) (k : string) : M value :=
  with_dict l (fun d => match d !! k with
                        | Some v => ret v
                        | None => raise KeyError
                        end).

(** [d[k] = v] *)
Definition dict_setitem (l : loc) (k : string) (v : value) : M unit :=
  with_dict l (fun d => store l (<[k := v]> d)).

(** [d.pop(k, None)] *)
Definition dict_pop (l : loc) (k : string) : M unit :=
  with_dict l (fun d => store l (delete k d)).

(** [del d[k]] *)
Definition dict_delitem (l : loc) (k : string) : M unit :=
  with_dict l (fun d => match d !! k with
                        | Some _ => store l (delete k d)
                        | None => raise KeyError
                        end).

(** *** [self.anonymization_map] *)

Definition map_contains (k : value) : M bool :=
  fun st => (st, Ok (bool_decide (is_Some (anonymization_map st !! k)))).

Definition map_setitem (k : value) (v : string) : M unit :=
  fun st => (set_map (<[k := v]> (anonymization_map st)) st, Ok tt).

Definition map_getitem (k : value) : M string :=
  fun st => match anonymization_map st !! k with
            | Some v => (st, Ok v)
            | None => (st, Raise KeyError)
            end.

(** *** The processor *)

(** [_get_age_group]. [age < 18] raises [TypeError] unless [age] is a number. *)
Definition _get_age_group (age : value) : result string :=
  match age with
  | VInt a =>
      if (a <? 18)%Z then Ok "0-17"
      else if (a <? 30)%Z then Ok "18-29"
      else if (a <? 50)%Z then Ok "30-49"
      else if (a <? 70)%Z then Ok "50-69"
      else Ok "70+"
  | _ => Raise TypeError
  end.

(** A [str] is held as its UTF-8 bytes: a character is a leading byte with
    the continuation bytes (those from 128 to 191) that follow it. *)
Definition is_continuation (c : ascii) : bool :=
  (128 <=? N_of_ascii c)%N && (N_of_ascii c <? 192)%N.

(** [s[:n]]: the first [n] characters of [s], all of [s] when it has fewer. *)
Fixpoint take_chars (n : nat) (s : string) : string :=
  match s with
  | EmptyString => EmptyString
  | String c s' =>
      if is_continuation c then String c (take_chars n s')
      else match n with
           | O => EmptyString
           | S n' => String c (take_chars n' s')
           end
  end.

(** [zip_code[:3] + "XX"] *)
Definition region_of (zip_code : value) : result string :=
  match zip_code with
  | VStr s => Ok (take_chars 3 s ++ "XX")
  | _ => Raise TypeError
  end.

Definition sensitive_fields : list string :=
  ["patient_id"; "name"; "ssn"; "phone"; "email"; "address"].

Section Processor.

(** [hashlib.sha256(s.encode()).hexdigest()], an external primitive. *)
Variable sha256_hexdigest : string -> string.

(** [anonymize_patient_data(self, ehr_data)]. [now] is what
    [datetime.now().isoformat()] answers during the call. *)
Definition anonymize_patient_data (ehr_data : loc) (now : string) : M loc :=
  do anonymized <- dict_copy ehr_data;
  do patient_id <- dict_get ehr_data "patient_id" (VStr "");
  do known <- map_contains patient_id;
  do_ (if known then ret tt
       else map_setitem patient_id
              (substring 0 16 (sha256_hexdigest (format patient_id ++ "_" ++ now))));
  do anonymous_id <- map_getitem patient_id;
  do_ dict_setitem anonymized "anonymous_id" (VStr anonymous_id);
  do_ for_each sensitive_fields (fun field => dict_pop anonymized field);
  do has_age <- dict_contains anonymized "age";
  do_ (if has_age then
         do age <- dict_getitem anonymized "age";
         do group <- lift (_get_age_group age);
         do_ dict_setitem anonymized "age_group" (VStr group);
         dict_delitem anonymized "age"
       else ret tt);
  do has_zip <- dict_contains anonymized "zip_code";
  do_ (if has_zip then
         do zip_code <- dict_getitem anonymized "zip_code";
         do region <- lift (region_of zip_code);
         do_ dict_setitem anonymized "region" (VStr region);
         dict_delitem anonymized "zip_code"
       else ret tt);
  ret anonymized.

(** *** Running the primitives *)

Definition mk (h : gmap loc dict) (m : gmap value string) : state :=
  {| heap := h; anonymization_map := m |}.

Lemma run_bind {A B} (m : M A) (k : A -> M B) st :
  bind m k st = match m st with
                | (st1, Ok a) => k a st1
                | (st1, Raise e) => (st1, Raise e)
                end.
Proof. reflexivity. Qed.

Lemma run_get h m l d k dflt :
  h !! l = Some d ->
  dict_get l k dflt (mk h m) = (mk h m, Ok (default dflt (d !! k))).
Proof. intros H. unfold dict_get, with_dict; simpl. by rewrite H. Qed.

Lemma run_contains h m l d k :
  h !! l = Some d ->
  dict_contains l k (mk h m) = (mk h m, Ok (bool_decide (is_Some (d !! k)))).
Proof. intros H. unfold dict_contains, with_dict; simpl. by rewrite H. Qed.

Lemma run_getitem h m l d k v :
  h !! l = Some d -> d !! k = Some v ->
  dict_getitem l k (mk h m) = (mk h m, Ok v).
Proof. intros H Hk. unfold dict_getitem, with_dict; simpl. by rewrite H, Hk. Qed.

Lemma run_setitem h m l d k v :
  dict_setitem l k v (mk (<[l := d]> h) m) = (mk (<[l := <[k := v]> d]> h) m, Ok tt).
Proof.
  unfold dict_setitem, with_dict, store, set_heap; simpl.
  by rewrite lookup_insert_eq, insert_insert_eq.
Qed.

Lemma run_pop h m l d k :
  dict_pop l k (mk (<[l := d]> h) m) = (mk (<[l := delete k d]> h) m, Ok tt).
Proof.
  unfold dict_pop, with_dict, store, set_heap; simpl.
  by rewrite lookup_insert_eq, insert_insert_eq.
Qed.

Lemma run_delitem h m l d k v :
  d !! k = Some v ->
  dict_delitem l k (mk (<[l := d]> h) m) = (mk (<[l := delete k d]> h) m, Ok tt).
Proof.
  intros Hk. unfold dict_delitem, with_dict, store, set_heap; simpl.
  rewrite lookup_insert_eq, Hk; simpl. by rewrite insert_insert_eq.
Qed.

Lemma run_pop_all h m l fields : forall d,
  for_each fields (fun field => dict_pop l field) (mk (<[l := d]> h) m)
  = (mk (<[l := foldl (fun acc f => delete f acc) d fields]> h) m, Ok tt).
Proof.
  induction fields as [|f fields IH]; intros d; simpl; [done|].
  rewrite run_bind, run_pop. apply IH.
Qed.

(** *** A summary of one call

    The items left in [anonymized] and the way the call ends, as functions of
    the input items; [anonymize_run] shows the code computes exactly this. *)

Definition pseudonym (patient_id : value) (now : string) : string :=
  substring 0 16 (sha256_hexdigest (format patient_id ++ "_" ++ now)).

Definition source_identity (d : dict) : value :=
  default (VStr "") (d !! "patient_id").

Definition remember (m : gmap value string) (pid : value) (now : string)
  : gmap value string :=
  match m !! pid with
  | Some _ => m
  | None => <[pid := pseudonym pid now]> m
  end.

Definition strip (d : dict) : dict :=
  foldl (fun acc f => delete f acc) d sensitive_fields.

Definition generalize (key out : string) (f : value -> result string) (d : dict)
  : dict * result unit :=
  match d !! key with
  | None => (d, Ok tt)
  | Some v =>
      match f v with
      | Ok s => (delete key (<[out := VStr s]> d), Ok tt)
      | Raise e => (d, Raise e)
      end
  end.

Definition summary (anonymous_id : string) (d : dict) : dict * result unit :=
  let d1 := strip (<["anonymous_id" := VStr anonymous_id]> d) in
  match generalize "age" "age_group" _get_age_group d1 with
  | (d2, Ok _) => generalize "zip_code" "region" region_of d2
  | (d2, Raise e) => (d2, Raise e)
  end.

Lemma remember_lookup m pid now :
  is_Some (remember m pid now !! pid).
Proof.
  unfold remember. destruct (m !! pid) eqn:E; [by rewrite E|].
  rewrite lookup_insert_eq. by eexists.
Qed.

Lemma run_generalize {B} h m l d key out f (k : M B) :
  (do has <- dict_contains l key;
   do_ (if has then
          do v <- dict_getitem l key;
          do s <- lift (f v);
          do_ dict_setitem l out (VStr s);
          dict_delitem l key
        else ret tt);
   k) (mk (<[l := d]> h) m)
  = match generalize key out f d with
    | (d', Ok _) => k (mk (<[l := d']> h) m)
    | (d', Raise e) => (mk (<[l := d']> h) m, Raise e)
    end.
Proof.
  unfold generalize.
  rewrite run_bind, (run_contains _ _ _ d) by apply lookup_insert_eq.
  destruct (d !! key) as [v|] eqn:Hk; simpl.
  - rewrite !run_bind, (run_getitem _ _ _ d _ v) by (done || apply lookup_insert_eq).
    unfold lift at 1. destruct (f v) as [s|e]; simpl; [|done].
    rewrite run_bind; cbn beta iota. rewrite run_bind, run_setitem.
    destruct (decide (out = key)) as [->|Hne].
    + rewrite (run_delitem _ _ _ _ _ (VStr s)) by apply lookup_insert_eq. done.
    + rewrite (run_delitem _ _ _ _ _ v) by (by rewrite lookup_insert_ne). done.
  - done.
Qed.

Lemma run_copy h m l d :
  h !! l = Some d ->
  dict_copy l (mk h m) = (mk (<[fresh (dom h) := d]> h) m, Ok (fresh (dom h))).
Proof. intros H. unfold dict_copy, with_dict; simpl. by rewrite H. Qed.

Lemma fresh_ne (h : gmap loc dict) l d : h !! l = Some d -> fresh (dom h) <> l.
Proof.
  intros H E. apply (is_fresh (dom h)). rewrite E. apply elem_of_dom. by eexists.
Qed.

Lemma anonymize_run h m l d now aid :
  h !! l = Some d ->
  remember m (source_identity d) now !! source_identity d = Some aid ->
  anonymize_patient_data l now (mk h m)
  = (mk (<[fresh (dom h) := (summary aid d).1]> h) (remember m (source_identity d) now),
     match (summary aid d).2 with Ok _ => Ok (fresh (dom h)) | Raise e => Raise e end).
Proof.
  intros Hl Haid. unfold anonymize_patient_data.
  rewrite run_bind, (run_copy _ _ _ d) by done.
  assert (<[fresh (dom h) := d]> h !! l = Some d) as Hl'.
  { rewrite lookup_insert_ne; [done | by eapply fresh_ne]. }
  rewrite run_bind, (run_get _ _ _ d) by done.
  fold (source_identity d). set (pid := source_identity d) in *.
  unfold map_contains at 1; cbn beta iota. rewrite run_bind.
  assert ((if bool_decide (is_Some (m !! pid)) then ret tt
           else map_setitem pid
                  (substring 0 16 (sha256_hexdigest (format pid ++ "_" ++ now))))
            (mk (<[fresh (dom h) := d]> h) m)
          = (mk (<[fresh (dom h) := d]> h) (remember m pid now), Ok tt)) as Hmap.
  { unfold remember. destruct (m !! pid) eqn:E; done. }
  simpl anonymization_map. rewrite run_bind, Hmap; cbn iota.
  rewrite run_bind. unfold map_getitem at 1; simpl anonymization_map.
  rewrite Haid.
  rewrite run_bind, run_setitem, run_bind, run_pop_all. fold (strip (<["anonymous_id" := VStr aid]> d)).
  rewrite run_generalize. unfold summary.
  destruct (generalize "age" "age_group" _get_age_group _) as [d2 [[]|e]]; [|done].
  rewrite run_generalize.
  by destruct (generalize "zip_code" "region" region_of d2) as [d3 [[]|e]].
Qed.

Lemma state_eta st : st = mk (heap st) (anonymization_map st).
Proof. by destruct st. Qed.

(** The call in full, for any state in which [ehr_data] is a live object. *)
Lemma anonymize_call st l d now :
  heap st !! l = Some d ->
  exists aid,
    remember (anonymization_map st) (source_identity d) now !! source_identity d
      = Some aid /\
    anonymize_patient_data l now st
    = (mk (<[fresh (dom (heap st)) := (summary aid d).1]> (heap st))
          (remember (anonymization_map st) (source_identity d) now),
       match (summary aid d).2 with
       | Ok _ => Ok (fresh (dom (heap st)))
       | Raise e => Raise e
       end).
Proof.
  intros Hl.
  destruct (remember_lookup (anonymization_map st) (source_identity d) now)
    as [aid Haid].
  exists aid; split; [done|].
  rewrite (state_eta st) at 1. by apply anonymize_run.
Qed.

(** A dangling reference stops the call at once. *)
Lemma anonymize_dangling st l now :
  heap st !! l = None -> anonymize_patient_data l now st = (st, Raise TypeError).
Proof.
  intros Hl. unfold anonymize_patient_data, bind, dict_copy, with_dict.
  by rewrite Hl.
Qed.

(** *** Lookups in the summary *)

Lemma foldl_delete_lookup (fs : list string) (d : dict) k :
  foldl (fun acc f => delete f acc) d fs !! k
  = if decide (k ∈ fs) then None else d !! k.
Proof.
  revert d. induction fs as [|f fs IH]; intros d; simpl.
  - done.
  - rewrite IH. destruct (decide (k = f)) as [->|Hne].
    + rewrite lookup_delete_eq.
      destruct (decide (f ∈ f :: fs)) as [_|Hn]; [by destruct (decide (f ∈ fs))|].
      exfalso. apply Hn. constructor.
    + rewrite lookup_delete_ne by done.
      destruct (decide (k ∈ fs)) as [Hin|Hin];
        destruct (decide (k ∈ f :: fs)) as [Hin'|Hin']; try done.
      * exfalso. apply Hin'. by constructor.
      * by apply elem_of_cons in Hin' as [?|?].
Qed.

Lemma strip_lookup d k :
  strip d !! k = if decide (k ∈ sensitive_fields) then None else d !! k.
Proof. apply foldl_delete_lookup. Qed.

Lemma generalize_untouched key out f d d' r k :
  generalize key out f d = (d', r) -> k <> key -> k <> out -> d' !! k = d !! k.
Proof.
  unfold generalize. intros H Hk Ho.
  destruct (d !! key) as [v|]; [destruct (f v)|]; injection H as <- <-;
    [by rewrite lookup_delete_ne, lookup_insert_ne | done | done].
Qed.

Lemma generalize_absent key out f d d' r :
  generalize key out f d = (d', r) -> d !! key = None -> d' = d /\ r = Ok tt.
Proof. unfold generalize. intros H Hk. rewrite Hk in H. by injection H as <- <-. Qed.

Lemma generalize_removes key out f d d' u :
  generalize key out f d = (d', Ok u) -> d' !! key = None.
Proof.
  unfold generalize. destruct (d !! key) as [v|] eqn:Hk.
  - destruct (f v); intros [= <-]. apply lookup_delete_eq.
  - by intros [= <-].
Qed.

Ltac not_sensitive :=
  unfold sensitive_fields; rewrite !not_elem_of_cons;
  repeat split; try done; apply not_elem_of_nil.

Lemma sensitive_not_generated k :
  k ∈ sensitive_fields ->
  k <> "age" /\ k <> "age_group" /\ k <> "zip_code" /\ k <> "region"
  /\ k <> "anonymous_id".
Proof.
  unfold sensitive_fields. intros H.
  repeat (apply elem_of_cons in H as [->|H]; [done|]).
  by apply elem_of_nil in H.
Qed.

Lemma summary_anonymous_id aid d :
  (summary aid d).1 !! "anonymous_id" = Some (VStr aid).
Proof.
  unfold summary.
  destruct (generalize "age" _ _ _) as [d2 r2] eqn:E2.
  assert (d2 !! "anonymous_id" = Some (VStr aid)) as H2.
  { rewrite (generalize_untouched _ _ _ _ _ _ _ E2) by done.
    rewrite strip_lookup. by rewrite lookup_insert_eq. }
  destruct r2 as [u|e]; [|done].
  destruct (generalize "zip_code" _ _ _) as [d3 r3] eqn:E3. simpl.
  by rewrite (generalize_untouched _ _ _ _ _ _ _ E3).
Qed.

Lemma summary_ok_lookup aid d out u :
  summary aid d = (out, Ok u) ->
  (forall k, k ∈ sensitive_fields -> out !! k = None) /\
  out !! "age" = None /\ out !! "zip_code" = None /\
  (forall k, k ∉ sensitive_fields ->
     k <> "age" -> k <> "zip_code" -> k <> "anonymous_id" ->
     (k = "age_group" -> d !! "age" = None) ->
     (k = "region" -> d !! "zip_code" = None) ->
     out !! k = d !! k).
Proof.
  unfold summary.
  set (d1 := strip (<["anonymous_id" := VStr aid]> d)).
  destruct (generalize "age" _ _ _) as [d2 [u2|e2]] eqn:E2; [|done].
  intros E3.
  assert (forall k, k ∉ sensitive_fields -> k <> "anonymous_id" -> d1 !! k = d !! k)
    as Hd1.
  { intros k Hk Ha. unfold d1. rewrite strip_lookup, decide_False by done.
    by rewrite lookup_insert_ne. }
  split; [|split; [|split]].
  - intros k Hk. destruct (sensitive_not_generated k Hk) as (?&?&?&?&?).
    rewrite (generalize_untouched _ _ _ _ _ _ _ E3) by done.
    rewrite (generalize_untouched _ _ _ _ _ _ _ E2) by done.
    unfold d1. by rewrite strip_lookup, decide_True.
  - rewrite (generalize_untouched _ _ _ _ _ _ _ E3) by done.
    by eapply generalize_removes.
  - by eapply generalize_removes.
  - intros k Hs Hage Hzip Hanon Hgroup Hregion.
    destruct (decide (k = "region")) as [->|Hr].
    + assert (d2 !! "zip_code" = None) as Hz.
      { rewrite (generalize_untouched _ _ _ _ _ _ _ E2) by done.
        rewrite Hd1; [by apply Hregion | | done].
        not_sensitive. }
      destruct (generalize_absent _ _ _ _ _ _ E3 Hz) as [-> _].
      rewrite (generalize_untouched _ _ _ _ _ _ _ E2) by done. by apply Hd1.
    + rewrite (generalize_untouched _ _ _ _ _ _ _ E3) by done.
      destruct (decide (k = "age_group")) as [->|Hg].
      * assert (d1 !! "age" = None) as Ha.
        { rewrite Hd1; [by apply Hgroup | | done].
          not_sensitive. }
        destruct (generalize_absent _ _ _ _ _ _ E2 Ha) as [-> _]. by apply Hd1.
      * rewrite (generalize_untouched _ _ _ _ _ _ _ E2) by done. by apply Hd1.
Qed.

Lemma remember_mono m pid now k v :
  m !! k = Some v -> remember m pid now !! k = Some v.
Proof.
  unfold remember. intros Hk. destruct (m !! pid) eqn:E; [done|].
  rewrite lookup_insert_ne; [done | congruence].
Qed.

Lemma remember_known m pid now v :
  m !! pid = Some v -> remember m pid now = m.
Proof. unfold remember. by intros ->. Qed.

(** The processor between two calls: any number of further calls of
    [anonymize_patient_data], and any activity of the callers on the store;
    nothing else writes [self.anonymization_map]. *)
Inductive reaches : state -> state -> Prop :=
  | reaches_refl st : reaches st st
  | reaches_call st l now st' :
      reaches (anonymize_patient_data l now st).1 st' -> reaches st st'
  | reaches_store st h st' :
      reaches (set_heap h st) st' -> reaches st st'.

Lemma anonymize_map_mono st l now k v :
  anonymization_map st !! k = Some v ->
  anonymization_map (anonymize_patient_data l now st).1 !! k = Some v.
Proof.
  intros Hk. destruct (heap st !! l) as [d|] eqn:Hl.
  - destruct (anonymize_call st l d now Hl) as (aid & _ & ->). simpl.
    by apply remember_mono.
  - by rewrite anonymize_dangling.
Qed.

Lemma reaches_map_mono st st' :
  reaches st st' ->
  forall k v, anonymization_map st !! k = Some v ->
              anonymization_map st' !! k = Some v.
Proof.
  induction 1 as [st | st l now st' _ IH | st h st' _ IH]; intros k v Hk.
  - done.
  - apply IH. by apply anonymize_map_mono.
  - by apply IH.
Qed.

(** The two generalisations are well typed on [d]: [age], when present, is
    an [int], and [zip_code], when present, a [str]. *)
Definition well_typed (d : dict) : bool :=
  match d !! "age" with Some (VInt _) | None => true | _ => false end
  && match d !! "zip_code" with Some (VStr _) | None => true | _ => false end.

Lemma summary_result aid d :
  (summary aid d).2 = if well_typed d then Ok tt else Raise TypeError.
Proof.
  unfold summary, well_typed.
  set (d1 := strip (<["anonymous_id" := VStr aid]> d)).
  assert (forall k, k ∉ sensitive_fields -> k <> "anonymous_id" -> d1 !! k = d !! k)
    as Hd1.
  { intros k Hk Ha. unfold d1. rewrite strip_lookup, decide_False by done.
    by rewrite lookup_insert_ne. }
  destruct (generalize "age" _ _ _) as [d2 r2] eqn:E2.
  assert (d2 !! "zip_code" = d !! "zip_code") as Hz.
  { rewrite (generalize_untouched _ _ _ _ _ _ _ E2) by done.
    apply Hd1; [not_sensitive | done]. }
  unfold generalize in E2. rewrite Hd1 in E2 by (not_sensitive || done).
  assert (forall d2', (generalize "zip_code" "region" region_of d2').2
            = match d2' !! "zip_code" with
              | Some (VStr _) | None => Ok tt
              | _ => Raise TypeError
              end) as Hgz.
  { intros d2'. unfold generalize.
    by destruct (d2' !! "zip_code") as [[]|]. }
  destruct (d !! "age") as [[s|z|]|].
  - by injection E2 as <- <-.
  - assert (exists g, _get_age_group (VInt z) = Ok g) as [g Hg].
    { simpl. repeat case_match; by eexists. }
    rewrite Hg in E2. injection E2 as <- <-.
    specialize (Hgz (delete "age" (<["age_group" := VStr g]> d1))).
    destruct (generalize "zip_code" _ _ _) as [d3 r3]. simpl in *.
    rewrite Hgz, Hz. by destruct (d !! "zip_code") as [[]|].
  - by injection E2 as <- <-.
  - injection E2 as <- <-. specialize (Hgz d1).
    destruct (generalize "zip_code" _ _ _) as [d3 r3]. simpl in *.
    rewrite Hgz, Hz. by destruct (d !! "zip_code") as [[]|].
Qed.

(** *** Properties of [anonymize_patient_data] *)


(** C8. On one processor, two calls on records with the same source identity
    give the same [anonymous_id], whatever the clock says at either call and
    whatever calls (and store activity of the callers) come in between. *)
Theorem anonymize_same_identity_same_id
    st1 l1 d1 now1 st1' o1 st2 l2 d2 now2 st2' o2 :
  heap st1 !! l1 = Some d1 ->
  anonymize_patient_data l1 now1 st1 = (st1', Ok o1) ->
  reaches st1' st2 ->
  heap st2 !! l2 = Some d2 ->
  anonymize_patient_data l2 now2 st2 = (st2', Ok o2) ->
  source_identity d1 = source_identity d2 ->
  exists aid out1 out2,
    heap st1' !! o1 = Some out1 /\ heap st2' !! o2 = Some out2 /\
    out1 !! "anonymous_id" = Some (VStr aid) /\
    out2 !! "anonymous_id" = Some (VStr aid).
Proof.
  intros Hl1 Hrun1 Hreach Hl2 Hrun2 Hid.
  destruct (anonymize_call st1 l1 d1 now1 Hl1) as (aid & Haid & Hcall1).
  rewrite Hcall1 in Hrun1.
  destruct (summary aid d1).2 eqn:Hs1; [|done].
  injection Hrun1 as <- <-.
  assert (anonymization_map st2 !! source_identity d2 = Some aid) as Hkept.
  { rewrite <- Hid. by apply (reaches_map_mono _ _ Hreach). }
  destruct (anonymize_call st2 l2 d2 now2 Hl2) as (aid2 & Haid2 & Hcall2).
  rewrite (remember_known _ _ _ _ Hkept) in Haid2, Hcall2.
  assert (aid2 = aid) as -> by congruence.
  rewrite Hcall2 in Hrun2.
  destruct (summary aid d2).2 eqn:Hs2; [|done].
  injection Hrun2 as <- <-.
  exists aid, (summary aid d1).1, (summary aid d2).1. simpl.
  rewrite !lookup_insert_eq. repeat split; apply summary_anonymous_id.
Qed.

(** C9, as the code has it. A record without [patient_id] is not refused: the
    call takes the empty string for its source identity, remembers a pseudonym
    for it, and returns an output carrying that pseudonym; the only failure is
    the [TypeError] of an ill-typed [age] or [zip_code]. *)
Theorem anonymize_missing_identity st l d now :
  heap st !! l = Some d ->
  d !! "patient_id" = None ->
  exists aid,
    anonymization_map (anonymize_patient_data l now st).1 !! VStr "" = Some aid /\
    if well_typed d then
      exists o out,
        (anonymize_patient_data l now st).2 = Ok o /\
        heap (anonymize_patient_data l now st).1 !! o = Some out /\
        out !! "anonymous_id" = Some (VStr aid)
    else (anonymize_patient_data l now st).2 = Raise TypeError.
Proof.
  intros Hl Hpid.
  destruct (anonymize_call st l d now Hl) as (aid & Haid & ->).
  assert (source_identity d = VStr "") as Hsrc.
  { unfold source_identity. by rewrite Hpid. }
  rewrite Hsrc in *. exists aid. split; [done|]. simpl.
  rewrite summary_result. destruct (well_typed d); [|done].
  eexists _, _. split; [done|]. split; [apply lookup_insert_eq|].
  apply summary_anonymous_id.
Qed.

(** C10. The call works on a copy: the caller's record, and every other
    dictionary alive before the call, holds the same items afterwards, however
    the call ends; a returned output is a new object. *)
Theorem anonymize_leaves_input st l d now :
  heap st !! l = Some d ->
  (forall l0 d0, heap st !! l0 = Some d0 ->
     heap (anonymize_patient_data l now st).1 !! l0 = Some d0) /\
  (forall o, (anonymize_patient_data l now st).2 = Ok o -> heap st !! o = None).
Proof.
  intros Hl.
  destruct (anonymize_call st l d now Hl) as (aid & _ & ->). simpl. split.
  - intros l0 d0 Hl0. rewrite lookup_insert_ne; [done|]. by eapply fresh_ne.
  - intros o Ho. destruct (summary aid d).2; [|done]. injection Ho as <-.
    apply not_elem_of_dom, is_fresh.
Qed.

(** *** More on [anonymize_patient_data] *)

(** Every integer age has a group, the one whose bounds hold it; ages below
    18, negative ones included, are in the first. *)
Theorem age_group_bounds (a : Z) :
  exists g, _get_age_group (VInt a) = Ok g /\
    (g = "0-17" <-> (a < 18)%Z) /\
    (g = "18-29" <-> (18 <= a < 30)%Z) /\
    (g = "30-49" <-> (30 <= a < 50)%Z) /\
    (g = "50-69" <-> (50 <= a < 70)%Z) /\
    (g = "70+" <-> (70 <= a)%Z).
Proof.
  cbn [_get_age_group].
  destruct (a <? 18)%Z eqn:H18; [|destruct (a <? 30)%Z eqn:H30;
    [|destruct (a <? 50)%Z eqn:H50; [|destruct (a <? 70)%Z eqn:H70]]];
    rewrite ?Z.ltb_lt, ?Z.ltb_ge in *;
    eexists; (split; [reflexivity|]);
    repeat split; intros; first [discriminate | lia | reflexivity].
Qed.

Lemma generalize_adds key out f d d' u v :
  generalize key out f d = (d', Ok u) -> d !! key = Some v -> key <> out ->
  exists s, f v = Ok s /\ d' !! out = Some (VStr s).
Proof.
  unfold generalize. intros Hg Hk Hne. rewrite Hk in Hg.
  destruct (f v) as [s|e]; [|discriminate]. injection Hg as <- _.
  exists s. split; [done|].
  rewrite lookup_delete_ne by done. apply lookup_insert_eq.
Qed.

(** What an output holds beside the fields carried through: the pseudonym
    the processor keeps for the record's identity, under [anonymous_id]; the
    group of the age under [age_group] and the first three characters of the
    zip code with [XX] under [region], when the record has an age or a zip
    code. *)
Theorem anonymize_generalizes st l d now st' o :
  heap st !! l = Some d ->
  anonymize_patient_data l now st = (st', Ok o) ->
  exists out aid,
    heap st' !! o = Some out /\
    anonymization_map st' !! source_identity d = Some aid /\
    out !! "anonymous_id" = Some (VStr aid) /\
    match d !! "age" with
    | Some age =>
        exists g, _get_age_group age = Ok g /\ out !! "age_group" = Some (VStr g)
    | None => out !! "age_group" = d !! "age_group"
    end /\
    match d !! "zip_code" with
    | Some zip_code =>
        exists r, region_of zip_code = Ok r /\ out !! "region" = Some (VStr r)
    | None => out !! "region" = d !! "region"
    end.
Proof.
  intros Hl Hrun.
  destruct (anonymize_call st l d now Hl) as (aid & Haid & Heq).
  rewrite Heq in Hrun.
  destruct (summary aid d) as [out r] eqn:Hsum. cbn [fst snd] in Hrun.
  destruct r as [[]|e]; [|discriminate]. injection Hrun as <- <-.
  exists out, aid. cbn [heap anonymization_map].
  split; [apply lookup_insert_eq|]. split; [done|].
  split; [by rewrite <- (summary_anonymous_id aid d), Hsum|].
  pose proof (summary_ok_lookup aid d out tt Hsum) as (_ & _ & _ & Hcarry).
  unfold summary in Hsum.
  set (d1 := strip (<["anonymous_id" := VStr aid]> d)) in *.
  assert (forall k, k ∉ sensitive_fields -> k <> "anonymous_id" -> d1 !! k = d !! k)
    as Hd1.
  { intros k Hk Ha. unfold d1. rewrite strip_lookup, decide_False by done.
    by rewrite lookup_insert_ne. }
  destruct (generalize "age" _ _ _) as [d2 [[]|e2]] eqn:E2; [|done].
  split.
  - destruct (d !! "age") as [age|] eqn:Hage.
    + destruct (generalize_adds _ _ _ _ _ _ age E2) as (g & Hg & Hout);
        [rewrite Hd1; [done|not_sensitive|done] | done |].
      exists g. split; [done|].
      by rewrite (generalize_untouched _ _ _ _ _ _ _ Hsum).
    + apply Hcarry; try done. not_sensitive.
  - destruct (d !! "zip_code") as [zip|] eqn:Hzip.
    + destruct (generalize_adds _ _ _ _ _ _ zip Hsum) as (r & Hr & Hout);
        [|done|by exists r].
      rewrite (generalize_untouched _ _ _ _ _ _ _ E2) by done.
      rewrite Hd1; [done|not_sensitive|done].
    + apply Hcarry; try done. not_sensitive.
Qed.


End Processor.

(** *** Concrete runs *)

(** A stand-in digest for running the model; no property above depends on
    what the digest is. *)
Definition sample_digest (s : string) : string := "d1g35t0f" ++ s.

Definition record_a : dict :=
  <["patient_id" := VStr "P-17"]> (<["name" := VStr "Ada"]>
  (<["age" := VInt 42]> (<["zip_code" := VStr "90210"]>
  (<["diagnosis" := VStr "J45"]> ∅)))).

Definition record_b : dict :=
  <["patient_id" := VStr "P-99"]> (<["age" := VInt 7]> ∅).

Definition record_anonymous : dict :=
  <["name" := VStr "Ada"]> (<["age" := VInt 42]> ∅).

Definition fresh_processor (records : list dict) : state :=
  mk (list_to_map (zip (seq 0 (length records)) records)) ∅.

Definition ward : state := fresh_processor [record_a; record_b].

Definition first_call : state * result loc :=
  anonymize_patient_data sample_digest 0 "2024-01-01T09:00:00" ward.

Definition other_call : state * result loc :=
  anonymize_patient_data sample_digest 1 "2024-01-01T09:05:00" first_call.1.

Definition second_call : state * result loc :=
  anonymize_patient_data sample_digest 0 "2024-03-09T17:30:00" other_call.1.


Lemma anonymize_same_identity_same_id_witness :
  exists aid out1 out2,
    heap first_call.1 !! 2 = Some out1 /\ heap second_call.1 !! 4 = Some out2 /\
    out1 !! "anonymous_id" = Some (VStr aid) /\
    out2 !! "anonymous_id" = Some (VStr aid).
Proof.
  apply (anonymize_same_identity_same_id sample_digest
           ward 0 record_a "2024-01-01T09:00:00" first_call.1 2
           other_call.1 0 record_a "2024-03-09T17:30:00" second_call.1 4).
  - vm_compute; reflexivity.
  - vm_compute; reflexivity.
  - apply (reaches_call sample_digest first_call.1 1 "2024-01-01T09:05:00").
    apply reaches_refl.
  - vm_compute; reflexivity.
  - vm_compute; reflexivity.
  - reflexivity.
Defined.

(** C9, as stated, fails: a record with no [patient_id] is anonymised, with
    any digest and at any time, instead of being refused. *)
Lemma anonymize_accepts_missing_identity :
  record_anonymous !! "patient_id" = None /\
  forall digest now,
    (anonymize_patient_data digest 0 now (fresh_processor [record_anonymous])).2
    = Ok 1.
Proof.
  split; [vm_compute; reflexivity|]. intros digest now.
  destruct (anonymize_call digest (fresh_processor [record_anonymous]) 0
              record_anonymous now) as (aid & _ & ->); [vm_compute; reflexivity|].
  simpl. rewrite summary_result.
  replace (well_typed record_anonymous) with true by (vm_compute; reflexivity).
  f_equal.
Qed.

Lemma anonymize_missing_identity_witness :
  exists aid,
    anonymization_map
      (anonymize_patient_data sample_digest 0 "2024-01-01T09:00:00"
         (fresh_processor [record_anonymous])).1 !! VStr "" = Some aid /\
    if well_typed record_anonymous then
      exists o out,
        (anonymize_patient_data sample_digest 0 "2024-01-01T09:00:00"
           (fresh_processor [record_anonymous])).2 = Ok o /\
        heap (anonymize_patient_data sample_digest 0 "2024-01-01T09:00:00"
                (fresh_processor [record_anonymous])).1 !! o = Some out /\
        out !! "anonymous_id" = Some (VStr aid)
    else (anonymize_patient_data sample_digest 0 "2024-01-01T09:00:00"
            (fresh_processor [record_anonymous])).2 = Raise TypeError.
Proof.
  apply (anonymize_missing_identity sample_digest
           (fresh_processor [record_anonymous]) 0 record_anonymous).
  - vm_compute; reflexivity.
  - vm_compute; reflexivity.
Defined.

Lemma anonymize_leaves_input_witness :
  (forall l0 d0, heap ward !! l0 = Some d0 -> heap first_call.1 !! l0 = Some d0) /\
  (forall o, first_call.2 = Ok o -> heap ward !! o = None).
Proof.
  apply (anonymize_leaves_input sample_digest ward 0 record_a).
  vm_compute; reflexivity.
Defined.

Lemma anonymize_generalizes_witness :
  exists out aid,
    heap first_call.1 !! 2 = Some out /\
    anonymization_map first_call.1 !! source_identity record_a = Some aid /\
    out !! "anonymous_id" = Some (VStr aid) /\
    match record_a !! "age" with
    | Some age =>
        exists g, _get_age_group age = Ok g /\ out !! "age_group" = Some (VStr g)
    | None => out !! "age_group" = record_a !! "age_group"
    end /\
    match record_a !! "zip_code" with
    | Some zip_code =>
        exists r, region_of zip_code = Ok r /\ out !! "region" = Some (VStr r)
    | None => out !! "region" = record_a !! "region"
    end.
Proof.
  apply (anonymize_generalizes sample_digest
           ward 0 record_a "2024-01-01T09:00:00" first_call.1 2).
  - vm_compute; reflexivity.
  - vm_compute; reflexivity.
Defined.

(** A zip code that starts with a letter of two bytes: three characters are
    kept, not three bytes. *)
Example region_of_two_byte_letter :
  region_of (VStr (String "195" (String "169" "1234")))
  = Ok (String "195" (String "169" "12XX")).
Proof. reflexivity. Qed.


End SecureEHRProcessor.

(** ** FederatedEHRModel *)

Module FederatedEHRModel.

Local Open Scope list_scope.

(** The arithmetic of the numbers held in tensors and metrics (Python and
    numpy floats). Nothing is assumed of it: the results that do not name an
    instance hold for any arithmetic, rounding included. *)
Class Arith (num : Type) : Type := {
  zero : num;
  add : num -> num -> num;
  mul : num -> num -> num;
  div : num -> num -> num;
  (** an [int] used as a number *)
  of_int : Z -> num;
  (** [a / b] on two [int]s *)
  true_div : Z -> Z -> num
}.

(** Exact rational arithmetic. *)
#[global] Instance Qc_arith : Arith Qc := {|
  zero := 0%Qc;
  add := Qcplus;
  mul := Qcmult;
  div := Qcdiv;
  of_int := fun z => Q2Qc (inject_Z z);
  true_div := fun a b => (Q2Qc (inject_Z a) / Q2Qc (inject_Z b))%Qc
|}.

(** [float('inf')] beside the finite numbers. *)
Inductive extended (num : Type) : Type :=
  | Finite (x : num)
  | Infinity.
Arguments Finite {num} x.
Arguments Infinity {num}.

Section Model.

Context {num : Type} `{Arith num}.

(** *** numpy arrays *)

(** An [ndarray]: its shape and its items in row-major order. *)
Record ndarray : Type := {
  shape : list nat;
  items : list num
}.

Definition size_of (s : list nat) : nat := foldr Nat.mul 1 s.

(** The invariant of every numpy array. *)
Definition well_formed (a : ndarray) : Prop :=
  length (items a) = size_of (shape a).

(** [np.zeros_like(a)] *)
Definition zeros_like (a : ndarray) : ndarray :=
  {| shape := shape a; items := replicate (length (items a)) zero |}.

(** [w * a] for a scalar [w] *)
Definition scale (w : num) (a : ndarray) : ndarray :=
  {| shape := shape a; items := map (mul w) (items a) |}.

(** numpy's broadcasting of an operand into an output that keeps its shape.
    Shapes are aligned from the last axis (both lists are given reversed): an
    axis of the operand must equal the output's or be 1, and the operand may
    not have more axes. *)
Fixpoint broadcasts_to (rsrc rdst : list nat) : bool :=
  match rsrc, rdst with
  | [], _ => true
  | e :: rs, d :: rd => ((e =? d)%nat || (e =? 1)%nat) && broadcasts_to rs rd
  | _ :: _, [] => false
  end.

(** The flat index in the operand of the item that meets the output's item
    at flat index [k]. *)
Fixpoint source_index (rsrc rdst : list nat) (k stride : nat) : nat :=
  match rsrc, rdst with
  | e :: rs, d :: rd =>
      (if (e =? 1)%nat then 0 else k mod d) * stride
      + source_index rs rd (k / d) (stride * e)
  | _, _ => 0
  end.

(** [out += t] *)
Definition iadd (out t : ndarray) : result ndarray :=
  if broadcasts_to (rev (shape t)) (rev (shape out)) then
    Ok {| shape := shape out;
          items := imap (fun k x =>
                           add x (default zero
                                    (items t !! source_index (rev (shape t))
                                                  (rev (shape out)) k 1)))
                        (items out) |}
  else Raise (ValueError "operands could not be broadcast together").

(** *** Federated averaging *)

(** [sum(client_sizes)] *)
Definition sum_sizes (client_sizes : list Z) : Z :=
  fold_left Z.add client_sizes 0%Z.

(** The inner loop of [_federated_averaging]:
    [for client_idx, weights in enumerate(client_weights)], from [client_idx]
    on, over the clients still to come. *)
Fixpoint accumulate (layer_idx : nat) (total_size : Z) (client_sizes : list Z)
    (client_idx : nat) (clients_left : list (list ndarray)) (layer_avg : ndarray)
  : result ndarray :=
  match clients_left with
  | [] => Ok layer_avg
  | weights :: clients_left' =>
      match client_sizes !! client_idx with
      | None => Raise IndexError
      | Some size =>
          if (total_size =? 0)%Z then Raise ZeroDivisionError
          else
            let weight := true_div size total_size in
            match weights !! layer_idx with
            | None => Raise IndexError
            | Some t =>
                match iadd layer_avg (scale weight t) with
                | Ok layer_avg' =>
                    accumulate layer_idx total_size client_sizes
                      (S client_idx) clients_left' layer_avg'
                | Raise e => Raise e
                end
            end
      end
  end.

(** The outer loop: one averaged tensor per index, appended in order; the
    first exception ends it. *)
Fixpoint for_layers (layer_idxs : list nat) (body : nat -> result ndarray)
  : result (list ndarray) :=
  match layer_idxs with
  | [] => Ok []
  | layer_idx :: layer_idxs' =>
      match body layer_idx with
      | Raise e => Raise e
      | Ok layer_avg =>
          match for_layers layer_idxs' body with
          | Ok avg_weights => Ok (layer_avg :: avg_weights)
          | Raise e => Raise e
          end
      end
  end.

(** [_federated_averaging(self, client_weights, client_sizes)] *)
Definition _federated_averaging (client_weights : list (list ndarray))
    (client_sizes : list Z) : result (list ndarray) :=
  let total_size := sum_sizes client_sizes in
  match client_weights with
  | [] => Raise IndexError
  | first :: _ =>
      for_layers (seq 0 (length first)) (fun layer_idx =>
        match first !! layer_idx with
        | None => Raise IndexError
        | Some t0 =>
            accumulate layer_idx total_size client_sizes 0 client_weights
              (zeros_like t0)
        end)
  end.

(** *** The model and one training round *)

Record FederatedClient : Type := {
  client_id : string;
  institution_name : string;
  public_key : string;
  data_hash : string;
  last_update : string;
  model_version : string
}.

(** [update['performance']]: both metrics are read with [.get(key, 0)]. *)
Record local_performance : Type := {
  accuracy : option num;
  loss : option num
}.

(** One entry of [client_updates]; ['performance'] may be missing. *)
Record client_update : Type := {
  model_weights : list ndarray;
  data_size : Z;
  performance : option local_performance
}.

(** The dictionary [_evaluate_global_model] returns. *)
Record performance_snapshot : Type := {
  avg_accuracy : num;
  avg_loss : extended num;
  participating_clients : nat;
  total_samples : Z;
  timestamp : string
}.

(** [self]: the weights of [self.global_model], the registry, the round
    counter and the history. *)
Record model : Type := {
  global_model : list ndarray;
  clients : gmap string FederatedClient;
  current_round : nat;
  performance_history : list performance_snapshot
}.

(** The dictionary [federated_training_round] returns. *)
Inductive round_result : Type :=
  | Failed (reason : string)
  | Success (round : nat) (performance : performance_snapshot)
            (global_model_weights : list ndarray).

Definition status (r : round_result) : string :=
  match r with
  | Failed _ => "failed"
  | Success _ _ _ => "success"
  end.

(** [register_client] *)
Definition register_client (self : model) (client : FederatedClient) : model :=
  {| global_model := global_model self;
     clients := <[client_id client := client]> (clients self);
     current_round := current_round self;
     performance_history := performance_history self |}.

(** The collection loop of [federated_training_round]: the weights and sizes
    of the updates whose client is registered, in the order of
    [client_updates]. *)
Definition collect (self : model) (client_updates : list (string * client_update))
  : list (list ndarray) * list Z :=
  fold_left
    (fun '(client_weights, client_sizes) '(client_id, update) =>
       if bool_decide (is_Some (clients self !! client_id))
       then (client_weights ++ [model_weights update],
             client_sizes ++ [data_size update])
       else (client_weights, client_sizes))
    client_updates ([], []).

(** [keras.Model.set_weights]: Keras takes a list only when it has as many
    arrays as the network, each of the network's shape. *)
Definition set_weights (current new : list ndarray) : result (list ndarray) :=
  if bool_decide (map shape new = map shape current) then Ok new
  else Raise (ValueError "weights do not fit the model").

(** [_evaluate_global_model(self, client_updates)]. [utcnow] is what
    [datetime.utcnow().isoformat()] answers. *)
Definition _evaluate_global_model
    (client_updates : list (string * client_update)) (utcnow : string)
  : performance_snapshot :=
  let '(total_accuracy, total_loss, total_samples) :=
    fold_left
      (fun '(total_accuracy, total_loss, total_samples) '(_, update) =>
         match performance update with
         | Some perf =>
             let samples := data_size update in
             (add total_accuracy
                (mul (default zero (accuracy perf)) (of_int samples)),
              add total_loss (mul (default zero (loss perf)) (of_int samples)),
              (total_samples + samples)%Z)
         | None => (total_accuracy, total_loss, total_samples)
         end)
      client_updates (zero, zero, 0%Z) in
  if (0 <? total_samples)%Z then
    {| avg_accuracy := div total_accuracy (of_int total_samples);
       avg_loss := Finite (div total_loss (of_int total_samples));
       participating_clients := length client_updates;
       total_samples := total_samples;
       timestamp := utcnow |}
  else
    {| avg_accuracy := zero;
       avg_loss := Infinity;
       participating_clients := length client_updates;
       total_samples := total_samples;
       timestamp := utcnow |}.

(** [federated_training_round(self, client_updates)]: the new [self] and
    what the call returns or raises. *)
Definition federated_training_round (self : model)
    (client_updates : list (string * client_update)) (utcnow : string)
  : model * result round_result :=
  let '(client_weights, client_sizes) := collect self client_updates in
  match client_weights with
  | [] => (self, Ok (Failed "no_updates"))
  | _ :: _ =>
      match _federated_averaging client_weights client_sizes with
      | Raise e => (self, Raise e)
      | Ok global_weights =>
          match set_weights (global_model self) global_weights with
          | Raise e => (self, Raise e)
          | Ok installed =>
              let performance := _evaluate_global_model client_updates utcnow in
              let round := S (current_round self) in
              ({| global_model := installed;
                  clients := clients self;
                  current_round := round;
                  performance_history :=
                    performance_history self ++ [performance] |},
               Ok (Success round performance global_weights))
          end
      end
  end.

(** *** Arrays of one shape *)

Lemma size_of_app s1 s2 : size_of (s1 ++ s2) = size_of s1 * size_of s2.
Proof.
  unfold size_of. induction s1 as [|d s1 IH]; simpl; [lia|].
  rewrite IH. lia.
Qed.

Lemma size_of_rev s : size_of (rev s) = size_of s.
Proof.
  induction s as [|d s IH]; simpl; [done|].
  rewrite size_of_app, IH. unfold size_of; simpl. lia.
Qed.

Lemma broadcasts_to_refl r : broadcasts_to r r = true.
Proof. induction r as [|d r IH]; simpl; [done|]. by rewrite Nat.eqb_refl, IH. Qed.

Lemma source_index_refl r : forall k stride,
  source_index r r k stride = stride * (k mod size_of r).
Proof.
  induction r as [|d r IH]; intros k stride; cbn [source_index].
  - change (size_of []) with 1. rewrite Nat.mod_1_r. lia.
  - rewrite IH. change (size_of (d :: r)) with (d * size_of r).
    rewrite Nat.Div0.mod_mul_r.
    destruct (d =? 1)%nat eqn:E.
    + apply Nat.eqb_eq in E as ->. rewrite Nat.mod_1_r. lia.
    + lia.
Qed.

Lemma source_index_same s k :
  k < size_of s -> source_index (rev s) (rev s) k 1 = k.
Proof.
  intros Hk. rewrite source_index_refl, size_of_rev, Nat.mod_small by done. lia.
Qed.

(** On operands of one shape [out += t] adds item by item. *)
Lemma iadd_same_shape out t :
  shape t = shape out -> well_formed out -> well_formed t ->
  iadd out t = Ok {| shape := shape out;
                     items := zip_with add (items out) (items t) |}.
Proof.
  unfold iadd, well_formed. intros Hs Ho Ht. rewrite Hs, broadcasts_to_refl.
  do 2 f_equal. apply list_eq. intros k.
  rewrite list_lookup_imap, lookup_zip_with.
  destruct (items out !! k) as [x|] eqn:Hx; simpl; [|done].
  assert (k < size_of (shape out)) as Hk.
  { rewrite <- Ho. by eapply lookup_lt_Some. }
  rewrite source_index_same by done.
  destruct (items t !! k) as [y|] eqn:Hy; simpl; [done|].
  apply lookup_ge_None in Hy. rewrite Ht, Hs in Hy. lia.
Qed.

Lemma well_formed_zeros_like t : well_formed t -> well_formed (zeros_like t).
Proof. unfold well_formed, zeros_like; simpl. by rewrite length_replicate. Qed.

Lemma well_formed_scale w t : well_formed t -> well_formed (scale w t).
Proof. unfold well_formed, scale; simpl. by rewrite length_map. Qed.

(** *** The weighted sum, as the specification words it

    [weighted_entry updates i k] is [Σ_j weight_j * update_j[i][k]] with
    [weight_j = size_j / Σ_k size_k]: the sum runs over the updates in their
    order, from zero. An update is its parameter set with its sample count. *)

Definition total (xs : list num) : num := fold_left add xs zero.

Definition entry (weights : list ndarray) (i k : nat) : num :=
  default zero (weights !! i ≫= fun t => items t !! k).

Definition weight_of (updates : list (list ndarray * Z)) (size : Z) : num :=
  true_div size (sum_sizes (map snd updates)).

Definition weighted_entry (updates : list (list ndarray * Z)) (i k : nat) : num :=
  total (map (fun u => mul (weight_of updates (snd u)) (entry (fst u) i k))
             updates).

(** Updates that fit together: as many tensors as [first], each of the shape
    of its counterpart, every one a well-formed array. *)
Definition fits (first weights : list ndarray) : Prop :=
  map shape weights = map shape first /\ Forall well_formed weights.

Lemma fits_lookup first weights i t0 :
  fits first weights -> first !! i = Some t0 ->
  exists t, weights !! i = Some t /\ shape t = shape t0 /\ well_formed t.
Proof.
  intros [Hs Hw] H0.
  assert (map shape weights !! i = Some (shape t0)) as Hi.
  { rewrite Hs, list_lookup_fmap, H0. done. }
  rewrite list_lookup_fmap in Hi.
  destruct (weights !! i) as [t|] eqn:Ht; simpl in Hi; [|done].
  exists t. split; [done|]. split; [congruence|].
  eapply Forall_lookup_1; eauto.
Qed.

Lemma accumulate_fits layer_idx total_size client_sizes t0 :
  total_size <> 0%Z ->
  forall clients_left client_idx layer_avg,
    client_idx + length clients_left <= length client_sizes ->
    shape layer_avg = shape t0 -> well_formed layer_avg ->
    Forall (fun weights => exists t, weights !! layer_idx = Some t /\
                             shape t = shape t0 /\ well_formed t) clients_left ->
    exists layer_avg',
      accumulate layer_idx total_size client_sizes client_idx clients_left layer_avg
        = Ok layer_avg' /\
      shape layer_avg' = shape t0 /\ well_formed layer_avg' /\
      forall k, k < size_of (shape t0) ->
        items layer_avg' !! k =
        Some (fold_left add
                (map (fun u => mul (true_div (snd u) total_size)
                                   (entry (fst u) layer_idx k))
                     (zip clients_left (drop client_idx client_sizes)))
                (default zero (items layer_avg !! k))).
Proof.
  intros Htotal. induction clients_left as [|weights rest IH];
    intros client_idx layer_avg Hlen Hshape Hwf Hall.
  - exists layer_avg. repeat split; try done.
    intros k Hk. simpl.
    destruct (items layer_avg !! k) eqn:E; [done|].
    apply lookup_ge_None in E. rewrite Hwf, Hshape in E. lia.
  - apply Forall_cons in Hall as [(t & Ht & Hst & Hwt) Hall].
    simpl in Hlen.
    destruct (client_sizes !! client_idx) as [size|] eqn:Hsize;
      [|apply lookup_ge_None in Hsize; lia].
    cbn [accumulate]. rewrite Hsize.
    destruct (total_size =? 0)%Z eqn:Hz; [apply Z.eqb_eq in Hz; done|].
    rewrite Ht.
    rewrite iadd_same_shape;
      [| simpl; congruence | done | by apply well_formed_scale].
    set (layer_avg1 := {| shape := shape layer_avg;
                          items := zip_with add (items layer_avg)
                                     (items (scale (true_div size total_size) t)) |}).
    assert (well_formed layer_avg1) as Hwf1.
    { unfold well_formed, layer_avg1; simpl.
      rewrite length_zip_with, length_map.
      unfold well_formed in Hwf, Hwt. rewrite Hwf, Hwt, Hst, Hshape. lia. }
    destruct (IH (S client_idx) layer_avg1) as (la' & Hrun & Hs' & Hwf' & Hitems);
      [lia | done | done | done |].
    exists la'. repeat split; try done.
    intros k Hk. rewrite (Hitems k Hk).
    rewrite (drop_S _ size _ Hsize). cbn [zip zip_with map fold_left fst snd].
    do 2 f_equal.
    assert (k < length (items layer_avg)) as Hk1 by (rewrite Hwf, Hshape; done).
    assert (k < length (items t)) as Hk2 by (rewrite Hwt, Hst; done).
    apply lookup_lt_is_Some in Hk1 as [x Hx], Hk2 as [y Hy].
    unfold layer_avg1, entry; simpl.
    rewrite lookup_zip_with, Hx, list_lookup_fmap, Hy, Ht. simpl.
    by rewrite Hy.
Qed.

Lemma for_layers_ok (P : nat -> ndarray -> Prop) body : forall layer_idxs,
  (forall i, i ∈ layer_idxs -> exists t, body i = Ok t /\ P i t) ->
  exists avg_weights,
    for_layers layer_idxs body = Ok avg_weights /\
    Forall2 P layer_idxs avg_weights.
Proof.
  induction layer_idxs as [|i idxs IH]; intros Hbody; simpl.
  - exists []. split; [done | constructor].
  - destruct (Hbody i) as (t & -> & Ht); [constructor|].
    destruct IH as (ts & -> & Hts).
    { intros j Hj. apply Hbody. by constructor. }
    exists (t :: ts). split; [done | by constructor].
Qed.

Lemma federated_averaging_cons first rest client_sizes :
  _federated_averaging (first :: rest) client_sizes
  = for_layers (seq 0 (length first)) (fun layer_idx =>
      match first !! layer_idx with
      | None => Raise IndexError
      | Some t0 =>
          accumulate layer_idx (sum_sizes client_sizes) client_sizes 0
            (first :: rest) (zeros_like t0)
      end).
Proof. reflexivity. Qed.

(** The code computes the weighted sum: on updates that fit together, with a
    size for every update and a non-zero total, [_federated_averaging]
    returns one array per tensor of the first update, of that tensor's shape,
    whose item [k] is [weighted_entry updates i k]. *)
Lemma federated_averaging_fits (updates : list (list ndarray * Z)) first size rest :
  updates = (first, size) :: rest ->
  sum_sizes (map snd updates) <> 0%Z ->
  Forall (fun u => fits first (fst u)) updates ->
  exists avg_weights,
    _federated_averaging (map fst updates) (map snd updates) = Ok avg_weights /\
    map shape avg_weights = map shape first /\
    Forall well_formed avg_weights /\
    forall i t, avg_weights !! i = Some t ->
      forall k, k < length (items t) ->
        items t !! k = Some (weighted_entry updates i k).
Proof.
  intros Hupd Htotal Hfits.
  set (P := fun (i : nat) (t : ndarray) =>
              (exists t0, first !! i = Some t0 /\ shape t = shape t0) /\
              well_formed t /\
              forall k, k < length (items t) ->
                items t !! k = Some (weighted_entry updates i k)).
  assert (exists avg_weights,
             _federated_averaging (map fst updates) (map snd updates)
               = Ok avg_weights /\
             Forall2 P (seq 0 (length first)) avg_weights) as (avg & Hrun & HP).
  { assert (map fst updates = first :: map fst rest) as Hfst by (by rewrite Hupd).
    rewrite Hfst, federated_averaging_cons, <- Hfst.
    apply for_layers_ok. intros i Hi.
    apply elem_of_seq in Hi as [_ Hi]. simpl in Hi.
    destruct (lookup_lt_is_Some_2 first i Hi) as [t0 Ht0]. rewrite Ht0.
    assert (well_formed t0) as Hwf0.
    { pose proof Hfits as Hf. rewrite Hupd in Hf.
      apply Forall_cons in Hf as [[_ Hf] _]. eapply Forall_lookup_1; eauto. }
    destruct (accumulate_fits i (sum_sizes (map snd updates)) (map snd updates) t0
                Htotal (map fst updates) 0 (zeros_like t0))
      as (la & Hla & Hs & Hwf & Hitems).
    - rewrite !length_map. lia.
    - done.
    - by apply well_formed_zeros_like.
    - apply Forall_fmap. eapply Forall_impl; [exact Hfits|].
      intros u Hu. unfold compose. exact (fits_lookup _ _ _ _ Hu Ht0).
    - exists la. split; [done|]. split; [by exists t0|]. split; [done|].
      intros k Hk. rewrite Hwf, Hs in Hk. rewrite (Hitems k Hk).
      f_equal. unfold weighted_entry, total, weight_of.
      rewrite drop_0, zip_fst_snd.
      replace (default zero (items (zeros_like t0) !! k)) with zero; [done|].
      unfold zeros_like; simpl.
      destruct (replicate _ zero !! k) eqn:E; [|done].
      by apply lookup_replicate in E as [-> _]. }
  exists avg. split; [done|].
  assert (length avg = length first) as Hlen.
  { apply Forall2_length in HP. by rewrite length_seq in HP. }
  split; [|split].
  - apply list_eq. intros i. rewrite !list_lookup_fmap.
    destruct (avg !! i) as [t|] eqn:Ht.
    + assert (seq 0 (length first) !! i = Some i) as Hseq.
      { apply lookup_seq. split; [done|]. rewrite <- Hlen.
        by eapply lookup_lt_Some. }
      destruct (Forall2_lookup_lr _ _ _ _ _ _ HP Hseq Ht) as [(t0 & Ht0 & Hs0) _].
      rewrite Ht0. simpl. by rewrite Hs0.
    + apply lookup_ge_None in Ht. rewrite Hlen in Ht.
      apply lookup_ge_None in Ht. by rewrite Ht.
  - apply Forall_lookup. intros i t Ht.
    assert (seq 0 (length first) !! i = Some i) as Hseq.
    { apply lookup_seq. split; [done|]. rewrite <- Hlen. by eapply lookup_lt_Some. }
    by destruct (Forall2_lookup_lr _ _ _ _ _ _ HP Hseq Ht) as (_ & ? & _).
  - intros i t Ht.
    assert (seq 0 (length first) !! i = Some i) as Hseq.
    { apply lookup_seq. split; [done|]. rewrite <- Hlen. by eapply lookup_lt_Some. }
    by destruct (Forall2_lookup_lr _ _ _ _ _ _ HP Hseq Ht) as (_ & _ & ?).
Qed.

Lemma sum_sizes_positive (client_sizes : list Z) :
  client_sizes <> [] -> Forall (fun size => (0 < size)%Z) client_sizes ->
  (0 < sum_sizes client_sizes)%Z.
Proof.
  unfold sum_sizes. intros Hne Hpos.
  assert (forall sizes acc, Forall (fun size => (0 < size)%Z) sizes ->
            (acc <= fold_left Z.add sizes acc)%Z) as Hmono.
  { induction sizes as [|size sizes IH]; intros acc Hs; simpl; [lia|].
    apply Forall_cons in Hs as [Hsize Hs]. specialize (IH (acc + size)%Z Hs). lia. }
  destruct client_sizes as [|size sizes]; [done|].
  apply Forall_cons in Hpos as [Hsize Hpos]. simpl.
  rewrite Z.add_0_l. specialize (Hmono sizes size Hpos). lia.
Qed.

(** *** The aggregate, as the specification words it

    Written without the code's loops and sums: the total sample count, the
    weighted sum [Σ_j weight_j * update_j[i][k]] with
    [weight_j = sample_count_j / Σ_k sample_count_k] (the sum runs over the
    updates in their order, from zero), and the aggregate itself, which has
    one tensor for each tensor of the first update, of its shape, with
    every entry the weighted sum at its place. *)

Definition sample_total (updates : list (list ndarray * Z)) : Z :=
  foldr (fun u n => (snd u + n)%Z) 0%Z updates.

Definition aggregate_entry (updates : list (list ndarray * Z)) (i k : nat)
  : num :=
  total (map (fun u => mul (true_div (snd u) (sample_total updates))
                           (entry (fst u) i k))
             updates).

Definition aggregate (updates : list (list ndarray * Z)) : list ndarray :=
  match updates with
  | [] => []
  | (first, _) :: _ =>
      imap (fun i t0 =>
              {| shape := shape t0;
                 items := map (aggregate_entry updates i)
                              (seq 0 (length (items t0))) |})
           first
  end.

Lemma sum_sizes_from (sizes : list Z) (n : Z) :
  fold_left Z.add sizes n = (n + foldr Z.add 0 sizes)%Z.
Proof.
  revert n. induction sizes as [|size sizes IH]; intros n; simpl; [lia|].
  rewrite IH. lia.
Qed.

Lemma sum_sizes_sample_total (updates : list (list ndarray * Z)) :
  sum_sizes (map snd updates) = sample_total updates.
Proof.
  unfold sum_sizes, sample_total. rewrite sum_sizes_from, Z.add_0_l.
  induction updates as [|u updates IH]; simpl; [done|]. by rewrite IH.
Qed.

Lemma weighted_entry_aggregate (updates : list (list ndarray * Z)) i k :
  weighted_entry updates i k = aggregate_entry updates i k.
Proof.
  unfold weighted_entry, aggregate_entry, weight_of.
  by rewrite sum_sizes_sample_total.
Qed.

(** The code computes the aggregate: on updates with positive sample counts
    that fit together, [_federated_averaging] returns exactly it. *)
Lemma federated_averaging_aggregate (updates : list (list ndarray * Z))
    first size rest :
  updates = (first, size) :: rest ->
  Forall (fun u => (0 < snd u)%Z) updates ->
  Forall (fun u => fits first (fst u)) updates ->
  _federated_averaging (map fst updates) (map snd updates)
  = Ok (aggregate updates).
Proof.
  intros Hupd Hpos Hfits.
  destruct (federated_averaging_fits updates first size rest Hupd)
    as (avg & Hrun & Hshape & Havg & Hentries); [|done|].
  { apply Z.neq_sym, Z.lt_neq, sum_sizes_positive.
    - by rewrite Hupd.
    - by apply Forall_fmap. }
  rewrite Hrun. f_equal.
  assert (Forall well_formed first) as Hfirst.
  { rewrite Hupd in Hfits. apply Forall_cons in Hfits as [[_ Hwf] _]. done. }
  assert (length avg = length first) as Hlen.
  { apply (f_equal length) in Hshape. by rewrite !length_map in Hshape. }
  rewrite Hupd at 1. cbn [aggregate]. rewrite <- Hupd.
  apply list_eq. intros i. rewrite list_lookup_imap.
  destruct (first !! i) as [t0|] eqn:Ht0; cbn [fmap option_fmap option_map].
  2: { apply lookup_ge_None. apply lookup_ge_None in Ht0. lia. }
  destruct (avg !! i) as [t|] eqn:Ht.
  2: { apply lookup_ge_None in Ht. apply lookup_lt_Some in Ht0. lia. }
  f_equal.
  assert (shape t = shape t0) as Hs.
  { apply (f_equal (fun l => l !! i)) in Hshape.
    rewrite !list_lookup_fmap, Ht, Ht0 in Hshape. by injection Hshape. }
  assert (length (items t) = length (items t0)) as Hitems.
  { assert (well_formed t) as Hwt by (by eapply Forall_lookup_1 in Havg).
    assert (well_formed t0) as Hwt0 by (by eapply Forall_lookup_1 in Hfirst).
    unfold well_formed in *. by rewrite Hwt, Hwt0, Hs. }
  destruct t as [st it]. cbn [shape items] in *. subst st. f_equal.
  apply list_eq. intros k. rewrite list_lookup_fmap.
  destruct (decide (k < length it)) as [Hk|Hk].
  - pose proof (Hentries i _ Ht k Hk) as He. cbn [items] in He.
    rewrite He, weighted_entry_aggregate, lookup_seq_lt by lia. done.
  - rewrite lookup_seq_ge by lia. apply lookup_ge_None. lia.
Qed.

(** *** What makes the averaging raise *)

(** [weights] can be folded into an average started from [first]: it has a
    tensor wherever [first] has one, and numpy can broadcast it into that
    tensor's shape. Tensors beyond those of [first] are never looked at. *)
Fixpoint combinable (first weights : list ndarray) : bool :=
  match first, weights with
  | [], _ => true
  | t0 :: first', t :: weights' =>
      broadcasts_to (rev (shape t)) (rev (shape t0)) && combinable first' weights'
  | _ :: _, [] => false
  end.

Lemma combinable_lookup first : forall weights,
  (forall i t0, first !! i = Some t0 ->
     exists t, weights !! i = Some t /\
               broadcasts_to (rev (shape t)) (rev (shape t0)) = true) ->
  combinable first weights = true.
Proof.
  induction first as [|t0 first IH]; intros weights Hall; simpl; [done|].
  destruct (Hall 0 t0 eq_refl) as (t & Ht & Hb).
  destruct weights as [|t' weights]; [done|]. injection Ht as ->.
  rewrite Hb. simpl. apply IH. intros i t1 Hi. apply (Hall (S i) t1 Hi).
Qed.

Lemma iadd_ok out t out' :
  iadd out t = Ok out' ->
  shape out' = shape out /\ broadcasts_to (rev (shape t)) (rev (shape out)) = true.
Proof.
  unfold iadd. destruct (broadcasts_to _ _); [|done]. by intros [= <-].
Qed.

Lemma accumulate_ok layer_idx total_size client_sizes :
  forall clients_left client_idx layer_avg layer_avg',
    accumulate layer_idx total_size client_sizes client_idx clients_left layer_avg
      = Ok layer_avg' ->
    Forall (fun weights => exists t, weights !! layer_idx = Some t /\
              broadcasts_to (rev (shape t)) (rev (shape layer_avg)) = true)
           clients_left.
Proof.
  induction clients_left as [|weights rest IH]; intros client_idx la la' Hrun;
    [constructor|].
  cbn [accumulate] in Hrun.
  destruct (client_sizes !! client_idx) as [size|]; [|done].
  destruct (total_size =? 0)%Z; [done|].
  destruct (weights !! layer_idx) as [t|] eqn:Ht; [|done].
  destruct (iadd la (scale (true_div size total_size) t)) as [la1|] eqn:Hadd;
    [|done].
  apply iadd_ok in Hadd as [Hs Hb]. constructor.
  - by exists t.
  - specialize (IH _ _ _ Hrun). rewrite Hs in IH. exact IH.
Qed.

Lemma for_layers_inv body : forall layer_idxs avg_weights,
  for_layers layer_idxs body = Ok avg_weights ->
  forall i, i ∈ layer_idxs -> exists t, body i = Ok t.
Proof.
  induction layer_idxs as [|j idxs IH]; intros avg Hrun i Hi.
  - by apply elem_of_nil in Hi.
  - simpl in Hrun. destruct (body j) as [t|] eqn:Hj; [|done].
    destruct (for_layers idxs body) as [ts|] eqn:Hts; [|done].
    apply elem_of_cons in Hi as [->|Hi]; [by exists t | by eapply IH].
Qed.

(** An average is returned only when every update can be folded into it. *)
Lemma federated_averaging_ok first rest client_sizes avg_weights :
  _federated_averaging (first :: rest) client_sizes = Ok avg_weights ->
  Forall (fun weights => combinable first weights = true) (first :: rest).
Proof.
  rewrite federated_averaging_cons. intros Hrun.
  apply Forall_forall. intros weights Hin. apply combinable_lookup.
  intros i t0 Hi.
  destruct (for_layers_inv _ _ _ Hrun i) as [la Hla].
  { apply elem_of_seq. split; [lia|]. simpl. by eapply lookup_lt_Some. }
  rewrite Hi in Hla. apply accumulate_ok in Hla.
  rewrite Forall_forall in Hla. exact (Hla weights Hin).
Qed.

Lemma federated_averaging_mismatch first rest client_sizes :
  Exists (fun weights => combinable first weights = false) rest ->
  exists e, _federated_averaging (first :: rest) client_sizes = Raise e.
Proof.
  intros Hex.
  destruct (_federated_averaging (first :: rest) client_sizes) as [avg|e] eqn:Hrun;
    [|by exists e].
  apply federated_averaging_ok in Hrun. apply Forall_cons in Hrun as [_ Hall].
  apply Exists_exists in Hex as (weights & Hin & Hno).
  rewrite Forall_forall in Hall. specialize (Hall weights Hin). congruence.
Qed.

(** What the averaging raises when the total is not zero: [IndexError] for a
    tensor or a size that is missing, [ValueError] for a sum in place that
    numpy refuses. *)
Lemma accumulate_raise layer_idx total_size client_sizes :
  total_size <> 0%Z ->
  forall clients_left client_idx layer_avg e,
    accumulate layer_idx total_size client_sizes client_idx clients_left layer_avg
      = Raise e ->
    e = IndexError \/ exists msg, e = ValueError msg.
Proof.
  intros Htotal.
  induction clients_left as [|weights rest IH]; intros client_idx la e Hrun;
    [done|].
  cbn [accumulate] in Hrun.
  destruct (client_sizes !! client_idx) as [size|];
    [|injection Hrun as <-; by left].
  destruct (total_size =? 0)%Z eqn:Hz; [apply Z.eqb_eq in Hz; done|].
  destruct (weights !! layer_idx) as [t|]; [|injection Hrun as <-; by left].
  unfold iadd in Hrun.
  destruct (broadcasts_to _ _); [by eapply IH|].
  injection Hrun as <-. right. by eexists.
Qed.

Lemma for_layers_raise body : forall layer_idxs e,
  for_layers layer_idxs body = Raise e ->
  exists i, i ∈ layer_idxs /\ body i = Raise e.
Proof.
  induction layer_idxs as [|j idxs IH]; intros e Hrun; [done|].
  simpl in Hrun. destruct (body j) as [t|e'] eqn:Hj.
  - destruct (for_layers idxs body) as [ts|e''] eqn:Hts; [done|].
    injection Hrun as <-. destruct (IH e'' eq_refl) as (i & Hi & Hbody).
    exists i. split; [by constructor | done].
  - injection Hrun as <-. exists j. split; [constructor | done].
Qed.

Lemma federated_averaging_raise first rest client_sizes e :
  sum_sizes client_sizes <> 0%Z ->
  _federated_averaging (first :: rest) client_sizes = Raise e ->
  e = IndexError \/ exists msg, e = ValueError msg.
Proof.
  intros Htotal. rewrite federated_averaging_cons. intros Hrun.
  apply for_layers_raise in Hrun as (i & _ & Hbody).
  destruct (first !! i) as [t0|]; [|injection Hbody as <-; by left].
  by eapply accumulate_raise.
Qed.

(** The converse of [combinable_lookup]. *)
Lemma combinable_inv first : forall weights,
  combinable first weights = true ->
  forall i t0, first !! i = Some t0 ->
    exists t, weights !! i = Some t /\
              broadcasts_to (rev (shape t)) (rev (shape t0)) = true.
Proof.
  induction first as [|t1 first IH]; intros weights Hc i t0 Hi; [done|].
  destruct weights as [|t weights]; [done|]. cbn [combinable] in Hc.
  apply andb_true_iff in Hc as [Hb Hc].
  destruct i as [|i]; cbn in Hi.
  - injection Hi as <-. by exists t.
  - by apply (IH weights Hc i t0).
Qed.

(** Updates that can all be folded in are averaged: the inner loop ends
    with a tensor of the shape it started from. *)
Lemma accumulate_combinable layer_idx total_size client_sizes s0 :
  total_size <> 0%Z ->
  forall clients_left client_idx layer_avg,
    client_idx + length clients_left <= length client_sizes ->
    shape layer_avg = s0 ->
    Forall (fun weights => exists t, weights !! layer_idx = Some t /\
              broadcasts_to (rev (shape t)) (rev s0) = true) clients_left ->
    exists layer_avg',
      accumulate layer_idx total_size client_sizes client_idx clients_left
        layer_avg = Ok layer_avg' /\
      shape layer_avg' = s0.
Proof.
  intros Htotal.
  induction clients_left as [|weights rest IH]; intros client_idx la Hlen Hs Hall.
  - by exists la.
  - apply Forall_cons in Hall as [(t & Ht & Hb) Hall].
    cbn [accumulate length] in *.
    destruct (client_sizes !! client_idx) as [size|] eqn:Hsize.
    2: { apply lookup_ge_None in Hsize. lia. }
    destruct (total_size =? 0)%Z eqn:Hz; [apply Z.eqb_eq in Hz; done|].
    rewrite Ht. unfold iadd. cbn [scale shape]. rewrite Hs, Hb.
    apply IH; [lia|done|done].
Qed.

Lemma federated_averaging_combinable first rest client_sizes :
  length client_sizes = length (first :: rest) ->
  sum_sizes client_sizes <> 0%Z ->
  Forall (fun weights => combinable first weights = true) rest ->
  exists avg_weights,
    _federated_averaging (first :: rest) client_sizes = Ok avg_weights /\
    map shape avg_weights = map shape first.
Proof.
  intros Hlen Htotal Hall. rewrite federated_averaging_cons.
  destruct (for_layers_ok
              (fun i t => exists t0, first !! i = Some t0 /\ shape t = shape t0)
              (fun layer_idx =>
                 match first !! layer_idx with
                 | None => Raise IndexError
                 | Some t0 =>
                     accumulate layer_idx (sum_sizes client_sizes) client_sizes 0
                       (first :: rest) (zeros_like t0)
                 end)
              (seq 0 (length first))) as (avg & Hrun & Hshapes).
  { intros i Hi. apply elem_of_seq in Hi as [_ Hi]. cbn in Hi.
    destruct (lookup_lt_is_Some_2 first i Hi) as [t0 Ht0]. rewrite Ht0.
    destruct (accumulate_combinable i (sum_sizes client_sizes) client_sizes
                (shape t0) Htotal (first :: rest) 0 (zeros_like t0))
      as (la & Hla & Hs); [lia|done| |].
    - apply Forall_cons. split.
      + exists t0. split; [done|]. apply broadcasts_to_refl.
      + apply Forall_forall. intros weights Hin.
        rewrite Forall_forall in Hall.
        exact (combinable_inv first weights (Hall _ Hin) i t0 Ht0).
    - exists la. split; [done|]. by exists t0. }
  exists avg. split; [done|].
  apply list_eq. intros i. rewrite !list_lookup_fmap.
  destruct (avg !! i) as [t|] eqn:Ht.
  - destruct (Forall2_lookup_r _ _ _ _ _ Hshapes Ht) as (j & Hj & t0 & Ht0 & Hs).
    apply lookup_seq in Hj as [-> _]. cbn in Ht0. rewrite Ht0. cbn.
    by rewrite Hs.
  - apply lookup_ge_None in Ht. apply Forall2_length in Hshapes.
    rewrite length_seq in Hshapes.
    assert (first !! i = None) as -> by (apply lookup_ge_None; lia). done.
Qed.

(** *** The round *)

Definition registered (self : model) (cu : string * client_update) : Prop :=
  is_Some (clients self !! cu.1).

Lemma collect_filter self client_updates :
  collect self client_updates
  = (map (fun cu => model_weights cu.2) (filter (registered self) client_updates),
     map (fun cu => data_size cu.2) (filter (registered self) client_updates)).
Proof.
  unfold collect.
  assert (forall cw cs,
    fold_left
      (fun '(client_weights, client_sizes) '(client_id, update) =>
         if bool_decide (is_Some (clients self !! client_id))
         then (client_weights ++ [model_weights update],
               client_sizes ++ [data_size update])
         else (client_weights, client_sizes))
      client_updates (cw, cs)
    = (cw ++ map (fun cu => model_weights cu.2)
               (filter (registered self) client_updates),
       cs ++ map (fun cu => data_size cu.2)
               (filter (registered self) client_updates))) as Hgen.
  { induction client_updates as [|[client_id update] ups IH]; intros cw cs; simpl.
    - by rewrite !app_nil_r.
    - rewrite filter_cons.
      destruct (decide (registered self (client_id, update))) as [Hd|Hd];
        unfold registered in Hd; simpl in Hd.
      + rewrite bool_decide_eq_true_2 by done. rewrite IH. simpl.
        by rewrite <- !app_assoc.
      + rewrite bool_decide_eq_false_2 by done. by rewrite IH. }
  apply (Hgen [] []).
Qed.

Lemma collect_lengths self client_updates :
  length (collect self client_updates).1 = length (collect self client_updates).2.
Proof. rewrite collect_filter. simpl. by rewrite !length_map. Qed.

Lemma collect_nothing self client_updates :
  (collect self client_updates).1 = [] <->
  Forall (fun cu => clients self !! cu.1 = None) client_updates.
Proof.
  rewrite collect_filter. simpl. split.
  - intros Hnil. apply fmap_nil_inv in Hnil.
    apply Forall_forall. intros cu Hin.
    destruct (clients self !! cu.1) as [c|] eqn:Hc; [|done].
    assert (cu ∈ filter (registered self) client_updates) as Hf.
    { apply list_elem_of_filter. split; [|done]. unfold registered. by rewrite Hc. }
    rewrite Hnil in Hf. by apply elem_of_nil in Hf.
  - intros Hall. induction Hall as [|cu ups Hcu _ IH]; [done|].
    rewrite filter_cons, decide_False; [done|].
    unfold registered. rewrite Hcu. by intros [? ?].
Qed.

(** Had the averaging been called on no update at all, it would have raised. *)
Lemma federated_averaging_empty client_sizes :
  _federated_averaging [] client_sizes = Raise IndexError.
Proof. reflexivity. Qed.

(** C2. A round that collects no update (no submitted update belongs to a
    registered client) returns [status = failed, reason = no_updates] and
    leaves [self] as it was: the round counter, the history and the global
    weights are those of before, and the averaging is not run. *)
Theorem round_without_updates self client_updates utcnow :
  (collect self client_updates).1 = [] ->
  federated_training_round self client_updates utcnow
    = (self, Ok (Failed "no_updates")) /\
  status (Failed "no_updates") = "failed" /\
  current_round (federated_training_round self client_updates utcnow).1
    = current_round self /\
  length (performance_history (federated_training_round self client_updates utcnow).1)
    = length (performance_history self) /\
  global_model (federated_training_round self client_updates utcnow).1
    = global_model self.
Proof.
  intros Hnone.
  assert (federated_training_round self client_updates utcnow
          = (self, Ok (Failed "no_updates"))) as Hrun.
  { unfold federated_training_round.
    destruct (collect self client_updates) as [cw cs]. simpl in Hnone. by subst cw. }
  by rewrite Hrun.
Qed.

(** C4, as the code has it. There is no shape check, no [ShapeMismatchError]
    and no failure result for a mismatch. With positive sample counts:
    when some collected update cannot be folded into the average started
    from the first one (it lacks a tensor the first one has, or has at a
    position a tensor numpy cannot broadcast into the first update's), the
    averaging raises [IndexError] or [ValueError], the exception leaves
    [federated_training_round] uncaught, and [self] is as before; when every
    collected update can be folded in, which extra tensors and shapes that
    broadcast do not prevent, the averaging does not fail and returns
    tensors of the first update's shapes. *)
Theorem round_mismatch_raises self client_updates utcnow first rest :
  (collect self client_updates).1 = first :: rest ->
  Forall (fun size => (0 < size)%Z) (collect self client_updates).2 ->
  (Exists (fun weights => combinable first weights = false) rest ->
   exists e,
     federated_training_round self client_updates utcnow = (self, Raise e) /\
     (e = IndexError \/ exists msg, e = ValueError msg)) /\
  (Forall (fun weights => combinable first weights = true) rest ->
   exists avg_weights,
     _federated_averaging (collect self client_updates).1
                          (collect self client_updates).2
     = Ok avg_weights /\
     map shape avg_weights = map shape first).
Proof.
  intros Hcw Hpos.
  pose proof (collect_lengths self client_updates) as Hlen.
  assert (sum_sizes (collect self client_updates).2 <> 0%Z) as Htotal.
  { apply Z.neq_sym, Z.lt_neq, sum_sizes_positive; [|done].
    intros Hnil. rewrite Hcw, Hnil in Hlen. done. }
  split.
  - intros Hex. unfold federated_training_round.
    destruct (collect self client_updates) as [cw cs]. cbn [fst snd] in *.
    subst cw.
    destruct (federated_averaging_mismatch first rest cs Hex) as [e He].
    rewrite He. exists e. split; [done|].
    by apply (federated_averaging_raise first rest cs).
  - intros Hall. rewrite Hcw.
    apply federated_averaging_combinable; [|done|done].
    by rewrite <- Hlen, Hcw.
Qed.

(** The updates that count in a round: parameter set and sample count of
    every submitted update whose client is registered. *)
Definition contributions (self : model)
    (client_updates : list (string * client_update)) : list (list ndarray * Z) :=
  map (fun cu => (model_weights cu.2, data_size cu.2))
      (filter (registered self) client_updates).

Lemma collect_contributions self client_updates :
  collect self client_updates
  = (map fst (contributions self client_updates),
     map snd (contributions self client_updates)).
Proof.
  rewrite collect_filter. unfold contributions.
  by rewrite <- !list_fmap_compose.
Qed.

(** Sample counts for which the arithmetic of the snapshot cannot leave the
    range of the floats: none is negative and together they are below
    [2^1023]. Beyond it the conversion of a count to a float raises
    [OverflowError] in the code. *)
Definition within_float_range
    (client_updates : list (string * client_update)) : Prop :=
  Forall (fun cu => (0 <= data_size cu.2)%Z) client_updates /\
  (sum_sizes (map (fun cu => data_size cu.2) client_updates) < 2 ^ 1023)%Z.

(** The round when the contributions fit together and fit the model. *)
Lemma round_success self client_updates utcnow first size rest :
  contributions self client_updates = (first, size) :: rest ->
  Forall (fun u => (0 < u.2)%Z) (contributions self client_updates) ->
  Forall (fun u => fits first u.1) (contributions self client_updates) ->
  map shape first = map shape (global_model self) ->
  federated_training_round self client_updates utcnow
  = ({| global_model := aggregate (contributions self client_updates);
        clients := clients self;
        current_round := S (current_round self);
        performance_history :=
          performance_history self
          ++ [_evaluate_global_model client_updates utcnow] |},
     Ok (Success (S (current_round self))
           (_evaluate_global_model client_updates utcnow)
           (aggregate (contributions self client_updates)))).
Proof.
  intros Hc Hpos Hfits Hmodel.
  pose proof (federated_averaging_aggregate (contributions self client_updates)
                first size rest Hc Hpos Hfits) as Hrun.
  destruct (federated_averaging_fits (contributions self client_updates)
              first size rest Hc) as (gw & Hrun' & Hshape & _); [|done|].
  { apply Z.neq_sym, Z.lt_neq, sum_sizes_positive.
    - rewrite Hc. done.
    - by apply Forall_fmap. }
  rewrite Hrun in Hrun'. injection Hrun' as <-.
  unfold federated_training_round. rewrite collect_contributions, Hrun.
  rewrite Hc at 1. cbn [map]. unfold set_weights.
  rewrite bool_decide_eq_true_2 by congruence. done.
Qed.

(** A round with contributions that fit together and fit the model, on
    sample counts within the range of the floats: the global weights become
    the aggregate of the contributions, the counter moves by one, one
    snapshot (what [_evaluate_global_model] makes of every submitted
    update) is appended, and the result reports success with the new round
    number and the new weights. *)
Theorem round_with_updates self client_updates utcnow first size rest :
  contributions self client_updates = (first, size) :: rest ->
  Forall (fun u => (0 < u.2)%Z) (contributions self client_updates) ->
  Forall (fun u => fits first u.1) (contributions self client_updates) ->
  map shape first = map shape (global_model self) ->
  within_float_range client_updates ->
  federated_training_round self client_updates utcnow
  = ({| global_model := aggregate (contributions self client_updates);
        clients := clients self;
        current_round := S (current_round self);
        performance_history :=
          performance_history self
          ++ [_evaluate_global_model client_updates utcnow] |},
     Ok (Success (S (current_round self))
           (_evaluate_global_model client_updates utcnow)
           (aggregate (contributions self client_updates)))).
Proof.
  intros Hc Hpos Hfits Hmodel _. by eapply round_success.
Qed.

End Model.

Arguments ndarray num : clear implicits.
Arguments client_update num : clear implicits.
Arguments local_performance num : clear implicits.
Arguments performance_snapshot num : clear implicits.
Arguments model num : clear implicits.
Arguments round_result num : clear implicits.

(** *** The claims at exact arithmetic *)

(** [np.array([...])] of one axis. *)
Definition vec {num : Type} (l : list num) : ndarray num :=
  {| shape := [length l]; items := l |}.

(** The rational [a / b]. *)
Definition frac (a : Z) (b : positive) : Qc := Q2Qc (a # b).

Lemma frac_eq (q : Qc) (a : Z) (b : positive) :
  Qeq (this q) (a # b) -> q = frac a b.
Proof.
  intros Heq. unfold frac. apply Qc_is_canon. simpl.
  rewrite Heq. symmetry. apply Qred_correct.
Qed.

(** Equality of evaluated data that holds rationals: structural down to the
    rationals, which are equal when their fractions are. *)
Ltac qc_eq :=
  lazymatch goal with
  | |- @eq Qc _ _ => apply Qc_is_canon; vm_compute; reflexivity
  | |- _ => first [reflexivity | f_equal; qc_eq]
  end.

(** C1. The averaged parameters are the sample-weighted sum of the
    contributing updates: with positive sample counts and updates that fit
    together, [_federated_averaging] returns the aggregate, which has one
    tensor for each tensor of the first update, of its shape and size, with
    every entry [Σ_j (size_j / Σ_k size_k) * update_j] at its place (in any
    arithmetic); and client A with 300 samples and parameter [1.0], client B
    with 700 samples and parameter [0.0] average to [0.3]. *)
Theorem federated_averaging_weighted_sum :
  (forall (num : Type) (arith : Arith num)
          (first : list (ndarray num)) (size : Z)
          (rest : list (list (ndarray num) * Z)),
      Forall (fun u => (0 < u.2)%Z) ((first, size) :: rest) ->
      Forall (fun u => fits first u.1) ((first, size) :: rest) ->
      _federated_averaging (map fst ((first, size) :: rest))
                           (map snd ((first, size) :: rest))
      = Ok (aggregate ((first, size) :: rest))) /\
  _federated_averaging [[vec [frac 1 1]]; [vec [frac 0 1]]] [300; 700]%Z
  = Ok [vec [frac 3 10]].
Proof.
  split.
  - intros num arith first size rest Hpos Hfits.
    by apply (federated_averaging_aggregate _ first size rest).
  - vm_compute. reflexivity.
Qed.

Lemma federated_averaging_weighted_sum_witness :
  _federated_averaging
    (map fst [([vec [frac 1 1; frac 2 1]], 300%Z);
              ([vec [frac 0 1; frac 4 1]], 700%Z)])
    (map snd [([vec [frac 1 1; frac 2 1]], 300%Z);
              ([vec [frac 0 1; frac 4 1]], 700%Z)])
  = Ok (aggregate [([vec [frac 1 1; frac 2 1]], 300%Z);
                   ([vec [frac 0 1; frac 4 1]], 700%Z)]).
Proof.
  apply (proj1 federated_averaging_weighted_sum Qc Qc_arith
           [vec [frac 1 1; frac 2 1]] 300%Z [([vec [frac 0 1; frac 4 1]], 700%Z)]).
  - repeat constructor.
  - repeat constructor.
Defined.

(** **** A small federation *)

Definition clinic (id : string) : FederatedClient :=
  {| client_id := id;
     institution_name := "clinic " ++ id;
     public_key := "pk-" ++ id;
     data_hash := "h-" ++ id;
     last_update := "2024-01-01T00:00:00";
     model_version := "1" |}.

(** A model of one tensor of one entry, with nobody registered. *)
Definition untrained : model Qc :=
  {| global_model := [vec [frac 0 1]];
     clients := ∅;
     current_round := 0;
     performance_history := [] |}.

(** The same model with clients [a] and [b] registered. *)
Definition federation : model Qc :=
  register_client (register_client untrained (clinic "a")) (clinic "b").

Definition update_of (weights : list (ndarray Qc)) (size : Z) (acc los : Qc)
  : client_update Qc :=
  {| model_weights := weights;
     data_size := size;
     performance := Some {| accuracy := Some acc; loss := Some los |} |}.

Definition noon : string := "2024-01-02T12:00:00".

Lemma round_without_updates_witness :
  federated_training_round federation
    [("x", update_of [vec [frac 5 1]] 300 (frac 1 10) (frac 9 10))] noon
    = (federation, Ok (Failed "no_updates")) /\
  status (Failed (num := Qc) "no_updates") = "failed" /\
  current_round
    (federated_training_round federation
       [("x", update_of [vec [frac 5 1]] 300 (frac 1 10) (frac 9 10))] noon).1
    = current_round federation /\
  length (performance_history
    (federated_training_round federation
       [("x", update_of [vec [frac 5 1]] 300 (frac 1 10) (frac 9 10))] noon).1)
    = length (performance_history federation) /\
  global_model
    (federated_training_round federation
       [("x", update_of [vec [frac 5 1]] 300 (frac 1 10) (frac 9 10))] noon).1
    = global_model federation.
Proof.
  apply (round_without_updates federation
           [("x", update_of [vec [frac 5 1]] 300 (frac 1 10) (frac 9 10))] noon).
  vm_compute. reflexivity.
Defined.

(** One update of the registered client [a], one of [x], who was never
    registered. *)
Definition mixed_updates : list (string * client_update Qc) :=
  [("a", update_of [vec [frac 1 1]] 100 (frac 9 10) (frac 1 10));
   ("x", update_of [vec [frac 5 1]] 300 (frac 1 10) (frac 9 10))].

(** C3. The success path does replace the weights, move the counter by one
    and append one snapshot, but the snapshot is not the average over the
    contributing clients: [_evaluate_global_model] is handed every submitted
    update, those of unregistered clients included, which the collection loop
    just before it leaves out of the aggregation. With [a] registered
    (100 samples, accuracy 0.9, loss 0.1) and [x] unregistered (300 samples,
    accuracy 0.1, loss 0.9) the weights are those of [a] alone, yet the
    snapshot reports accuracy 0.3, loss 0.7, two participating clients and
    400 samples. *)
Theorem round_metrics_count_unregistered :
  (forall (num : Type) (arith : Arith num) (self self' : model num)
          client_updates utcnow round perf global_weights,
      federated_training_round self client_updates utcnow
        = (self', Ok (Success round perf global_weights)) ->
      perf = _evaluate_global_model client_updates utcnow /\
      participating_clients perf = length client_updates) /\
  contributions federation mixed_updates = [([vec [frac 1 1]], 100%Z)] /\
  exists self' perf,
    federated_training_round federation mixed_updates noon
      = (self', Ok (Success 1 perf [vec [frac 1 1]])) /\
    global_model self' = [vec [frac 1 1]] /\
    current_round self' = 1 /\
    performance_history self' = [perf] /\
    avg_accuracy perf = frac 3 10 /\
    avg_loss perf = Finite (frac 7 10) /\
    participating_clients perf = 2 /\
    total_samples perf = 400%Z.
Proof.
  split; [|split].
  - intros num arith self self' ups utcnow round perf gw.
    unfold federated_training_round.
    destruct (collect self ups) as [cw cs].
    destruct cw as [|w cw]; [discriminate|].
    destruct (_federated_averaging (w :: cw) cs) as [avg|e]; [|discriminate].
    destruct (set_weights (global_model self) avg) as [inst|e]; [|discriminate].
    intros [= <- <- <- <-]. split; [done|].
    unfold _evaluate_global_model.
    destruct (fold_left _ ups _) as [[ta tl] ts].
    by destruct (0 <? ts)%Z.
  - vm_compute. reflexivity.
  - exists (federated_training_round federation mixed_updates noon).1,
           (_evaluate_global_model mixed_updates noon).
    repeat split; vm_compute; qc_eq.
Qed.

(** The update of [b] has one tensor more than that of [a], of another shape. *)
Definition unequal_updates : list (string * client_update Qc) :=
  [("a", update_of [vec [frac 1 1]] 100 (frac 9 10) (frac 1 10));
   ("b", update_of [vec [frac 3 1]; vec [frac 7 1; frac 8 1]] 300
           (frac 1 10) (frac 9 10))].

(** Updates of unequal tensor counts, and tensors of unequal shapes, can be
    averaged without any error: the layers are those of the first update, so
    a later update's extra tensors are never read, and numpy broadcasts an
    axis of length 1. The round then succeeds. *)
Lemma round_accepts_unequal_updates :
  map (fun cu => length (model_weights cu.2)) unequal_updates = [1; 2] /\
  (exists self' perf,
     federated_training_round federation unequal_updates noon
       = (self', Ok (Success 1 perf [vec [frac 5 2]])) /\
     status (Success 1 perf [vec [frac 5 2]]) = "success" /\
     global_model self' = [vec [frac 5 2]] /\
     current_round self' = 1 /\
     length (performance_history self') = 1) /\
  shape (vec [frac 1 1; frac 2 1]) <> shape (vec [frac 4 1]) /\
  _federated_averaging [[vec [frac 1 1; frac 2 1]]; [vec [frac 4 1]]] [1; 1]%Z
    = Ok [vec [frac 5 2; frac 3 1]].
Proof.
  split; [reflexivity|]. split; [|split; [discriminate|vm_compute; qc_eq]].
  exists (federated_training_round federation unequal_updates noon).1,
         (_evaluate_global_model unequal_updates noon).
  repeat split; vm_compute; qc_eq.
Qed.

(** The update of [b] lacks the second tensor of the update of [a]. *)
Definition short_updates : list (string * client_update Qc) :=
  [("a", update_of [vec [frac 1 1]; vec [frac 2 1]] 100 (frac 9 10) (frac 1 10));
   ("b", update_of [vec [frac 3 1]] 300 (frac 1 10) (frac 9 10))].

Lemma round_mismatch_raises_witness :
  exists e,
    federated_training_round federation short_updates noon
    = (federation, Raise e) /\
    (e = IndexError \/ exists msg, e = ValueError msg).
Proof.
  apply (round_mismatch_raises federation short_updates noon
           [vec [frac 1 1]; vec [frac 2 1]] [[vec [frac 3 1]]]).
  - vm_compute. reflexivity.
  - repeat constructor.
  - apply Exists_cons_hd. vm_compute. reflexivity.
Defined.

Definition equal_updates : list (string * client_update Qc) :=
  [("a", update_of [vec [frac 1 1]] 300 (frac 9 10) (frac 1 10));
   ("b", update_of [vec [frac 0 1]] 700 (frac 1 10) (frac 9 10))].

Lemma round_with_updates_witness :
  federated_training_round federation equal_updates noon
  = ({| global_model := aggregate (contributions federation equal_updates);
        clients := clients federation;
        current_round := S (current_round federation);
        performance_history :=
          performance_history federation
          ++ [_evaluate_global_model equal_updates noon] |},
     Ok (Success (S (current_round federation))
           (_evaluate_global_model equal_updates noon)
           (aggregate (contributions federation equal_updates)))).
Proof.
  apply (round_with_updates federation equal_updates noon
           [vec [frac 1 1]] 300%Z [([vec [frac 0 1]], 700%Z)]).
  - vm_compute. reflexivity.
  - repeat constructor.
  - repeat constructor.
  - reflexivity.
  - split; [repeat constructor; done | reflexivity].
Defined.

(** *** More on the round *)

Section Round.

Context {num : Type} `{Arith num}.

(** Nothing to average the metrics of: when no submitted update carries a
    ['performance'] entry (in particular when there is no update), the
    snapshot has accuracy 0, loss [inf] and no sample. *)
Theorem evaluate_without_performance
    (client_updates : list (string * client_update num)) utcnow :
  Forall (fun cu => performance cu.2 = None) client_updates ->
  _evaluate_global_model client_updates utcnow
  = {| avg_accuracy := zero;
       avg_loss := Infinity;
       participating_clients := length client_updates;
       total_samples := 0;
       timestamp := utcnow |}.
Proof.
  intros Hnone. unfold _evaluate_global_model.
  assert (forall acc,
    fold_left
      (fun '(total_accuracy, total_loss, total_samples) '(_, update) =>
         match performance update with
         | Some perf =>
             let samples := data_size update in
             (add total_accuracy
                (mul (default zero (accuracy perf)) (of_int samples)),
              add total_loss (mul (default zero (loss perf)) (of_int samples)),
              (total_samples + samples)%Z)
         | None => (total_accuracy, total_loss, total_samples)
         end)
      client_updates acc = acc) as Hfold.
  { induction Hnone as [|[id update] ups Hcu _ IH]; intros [[a l] s]; [done|].
    simpl in Hcu. simpl. rewrite Hcu. apply IH. }
  by rewrite Hfold.
Qed.

(** Sample counts that sum to zero: the first weight computed divides by
    zero, the exception leaves the round and the model is as before. *)
Theorem round_zero_samples (self : model num) client_updates utcnow first rest :
  (collect self client_updates).1 = first :: rest ->
  first <> [] ->
  sum_sizes (collect self client_updates).2 = 0%Z ->
  federated_training_round self client_updates utcnow
  = (self, Raise ZeroDivisionError).
Proof.
  intros Hcw Hfirst Hzero. unfold federated_training_round.
  pose proof (collect_lengths self client_updates) as Hlen.
  destruct (collect self client_updates) as [cw cs]. simpl in *. subst cw.
  destruct cs as [|size cs]; [done|].
  destruct first as [|t0 first]; [done|].
  rewrite federated_averaging_cons. cbn [length seq for_layers lookup list_lookup].
  cbn [accumulate lookup list_lookup]. rewrite Hzero. reflexivity.
Qed.

(** Updates of clients that are not registered change nothing in the new
    weights, the round number or the outcome: with sample counts within the
    range of the floats, the round goes as on the registered clients'
    updates alone, but for the snapshot. *)
Theorem round_ignores_unregistered (self : model num) client_updates utcnow :
  within_float_range client_updates ->
  global_model (federated_training_round self client_updates utcnow).1
  = global_model (federated_training_round self
                    (filter (registered self) client_updates) utcnow).1 /\
  current_round (federated_training_round self client_updates utcnow).1
  = current_round (federated_training_round self
                     (filter (registered self) client_updates) utcnow).1 /\
  clients (federated_training_round self client_updates utcnow).1
  = clients (federated_training_round self
               (filter (registered self) client_updates) utcnow).1 /\
  match (federated_training_round self client_updates utcnow).2,
        (federated_training_round self
           (filter (registered self) client_updates) utcnow).2 with
  | Ok (Success r1 _ w1), Ok (Success r2 _ w2) => r1 = r2 /\ w1 = w2
  | Ok (Failed reason1), Ok (Failed reason2) => reason1 = reason2
  | Raise e1, Raise e2 => e1 = e2
  | _, _ => False
  end.
Proof.
  intros _. unfold federated_training_round.
  assert (collect self (filter (registered self) client_updates)
          = collect self client_updates) as ->.
  { rewrite !collect_filter. by rewrite list_filter_filter_l. }
  destruct (collect self client_updates) as [cw cs].
  destruct cw as [|w cw]; [done|].
  destruct (_federated_averaging (w :: cw) cs) as [gw|e]; [|done].
  destruct (set_weights (global_model self) gw) as [inst|e]; done.
Qed.

(** Once a client is registered, a round that has one of its updates is
    never a round without updates; registering changes neither the weights,
    the round number nor the history. *)
Theorem registered_client_is_collected (self : model num) client
    client_updates update utcnow :
  (client_id client, update) ∈ client_updates ->
  (federated_training_round (register_client self client) client_updates
     utcnow).2 <> Ok (Failed "no_updates") /\
  global_model (register_client self client) = global_model self /\
  current_round (register_client self client) = current_round self /\
  performance_history (register_client self client) = performance_history self.
Proof.
  intros Hin. split; [|done].
  unfold federated_training_round.
  destruct (collect (register_client self client) client_updates)
    as [cw cs] eqn:Hc.
  assert (cw <> []) as Hne.
  { intros ->. apply (f_equal fst) in Hc. simpl in Hc.
    apply collect_nothing in Hc. rewrite Forall_forall in Hc.
    specialize (Hc _ Hin). simpl in Hc. by rewrite lookup_insert_eq in Hc. }
  destruct cw as [|w cw]; [done|].
  destruct (_federated_averaging (w :: cw) cs) as [gw|e]; [|done].
  by destruct (set_weights _ gw).
Qed.

(** The updates that carry a ['performance'] entry: sample count and
    metrics. *)
Definition scored (client_updates : list (string * client_update num))
  : list (Z * local_performance num) :=
  omap (fun cu => (fun perf => (data_size cu.2, perf)) <$> performance cu.2)
       client_updates.

(** Their sample counts together. *)
Definition scored_total (scores : list (Z * local_performance num)) : Z :=
  foldr (fun s n => (s.1 + n)%Z) 0%Z scores.

Lemma evaluate_fold (client_updates : list (string * client_update num))
    (a l : num) (n : Z) :
  fold_left
    (fun '(total_accuracy, total_loss, total_samples) '(_, update) =>
       match performance update with
       | Some perf =>
           let samples := data_size update in
           (add total_accuracy
              (mul (default zero (accuracy perf)) (of_int samples)),
            add total_loss (mul (default zero (loss perf)) (of_int samples)),
            (total_samples + samples)%Z)
       | None => (total_accuracy, total_loss, total_samples)
       end)
    client_updates (a, l, n)
  = (fold_left add
       (map (fun s => mul (default zero (accuracy s.2)) (of_int s.1))
            (scored client_updates)) a,
     fold_left add
       (map (fun s => mul (default zero (loss s.2)) (of_int s.1))
            (scored client_updates)) l,
     (n + scored_total (scored client_updates))%Z).
Proof.
  revert a l n.
  induction client_updates as [|[id update] ups IH]; intros a l n.
  - cbn. by rewrite Z.add_0_r.
  - cbn [fold_left]. unfold scored. cbn [omap list_omap fst snd].
    destruct (performance update) as [perf|]; cbn [fmap option_fmap option_map].
    + rewrite IH. cbn [map fold_left scored_total foldr fst snd].
      fold (scored ups). f_equal; try reflexivity.
      unfold scored_total. lia.
    + rewrite IH. reflexivity.
Qed.

(** The snapshot in closed form, for sample counts within the range of the
    floats. With [N] the sample counts of the submitted updates that carry
    metrics together: when [N] is positive the accuracy is the sum of their
    [accuracy * data_size], taken in their order from zero, divided by [N],
    and the loss likewise (a metric that is missing counts as 0); otherwise
    the accuracy is 0 and the loss [inf]. Every submitted update counts as a
    participating client. *)
Theorem evaluate_closed_form
    (client_updates : list (string * client_update num)) utcnow :
  within_float_range client_updates ->
  _evaluate_global_model client_updates utcnow
  = {| avg_accuracy :=
         if (0 <? scored_total (scored client_updates))%Z then
           div (total (map (fun s => mul (default zero (accuracy s.2))
                                         (of_int s.1))
                           (scored client_updates)))
               (of_int (scored_total (scored client_updates)))
         else zero;
       avg_loss :=
         if (0 <? scored_total (scored client_updates))%Z then
           Finite (div (total (map (fun s => mul (default zero (loss s.2))
                                                 (of_int s.1))
                                   (scored client_updates)))
                       (of_int (scored_total (scored client_updates))))
         else Infinity;
       participating_clients := length client_updates;
       total_samples := scored_total (scored client_updates);
       timestamp := utcnow |}.
Proof.
  intros _. unfold _evaluate_global_model. rewrite evaluate_fold, Z.add_0_l.
  unfold total. by destruct (0 <? scored_total (scored client_updates))%Z.
Qed.

End Round.

(** *** FederatedEHROrchestrator *)

(** [self] once [initialize_federation] has run: the model and the active
    clients, in the order of the dictionary. *)
Record orchestrator (num : Type) : Type := {
  model_ : model num;
  active_clients : list (string * FederatedClient)
}.
Arguments model_ {num} o.
Arguments active_clients {num} o.

(** What [np.random] draws for one client: [randint(100, 1000)] and the two
    [uniform] metrics. *)
Record draw (num : Type) : Type := {
  drawn_size : Z;
  drawn_accuracy : num;
  drawn_loss : num
}.
Arguments drawn_size {num} d.
Arguments drawn_accuracy {num} d.
Arguments drawn_loss {num} d.

(** [_get_client_update]: the stand-in sends the global weights back. *)
Definition _get_client_update {num} (self : orchestrator num) (d : draw num)
  : client_update num :=
  {| model_weights := global_model (model_ self);
     data_size := drawn_size d;
     performance := Some {| accuracy := Some (drawn_accuracy d);
                            loss := Some (drawn_loss d) |} |}.

(** [coordinate_training_round]: one update per active client (an update is
    a non-empty dictionary, so it is always kept), then the round of the
    model; distributing the result only logs. [draws] gives what is drawn
    for each client. *)
Definition coordinate_training_round {num} `{Arith num}
    (self : orchestrator num) (draws : string -> draw num) (utcnow : string)
  : orchestrator num * result (round_result num) :=
  let client_updates :=
    map (fun '(client_id, _) => (client_id, _get_client_update self (draws client_id)))
        (active_clients self) in
  let '(model', result) :=
    federated_training_round (model_ self) client_updates utcnow in
  ({| model_ := model'; active_clients := active_clients self |}, result).

(** The updates [coordinate_training_round] hands to the round. *)
Definition collected_updates {num} (self : orchestrator num)
    (draws : string -> draw num) : list (string * client_update num) :=
  map (fun '(client_id, _) =>
         (client_id, _get_client_update self (draws client_id)))
      (active_clients self).

(** A coordinated round with at least one active client that is registered
    succeeds: every contribution is the global weights themselves, with a
    drawn sample count from 100 to 999; the new weights are their aggregate,
    of the shapes of the old weights (every entry is the weighted sum of
    copies of the old entry, which is the old entry up to rounding); the
    round number moves by one and one snapshot is appended. The active
    clients are the keys of a dictionary, few enough for the sample counts
    to stay within the range of the floats. *)
Theorem coordinated_round_succeeds {num} `{Arith num} (self : orchestrator num)
    (draws : string -> draw num) utcnow client_id client :
  NoDup (map fst (active_clients self)) ->
  (Z.of_nat (length (active_clients self)) < 2 ^ 1000)%Z ->
  (client_id, client) ∈ active_clients self ->
  is_Some (clients (model_ self) !! client_id) ->
  (forall id, (100 <= drawn_size (draws id) < 1000)%Z) ->
  Forall well_formed (global_model (model_ self)) ->
  coordinate_training_round self draws utcnow
  = ({| model_ :=
          {| global_model :=
               aggregate (contributions (model_ self)
                            (collected_updates self draws));
             clients := clients (model_ self);
             current_round := S (current_round (model_ self));
             performance_history :=
               performance_history (model_ self)
               ++ [_evaluate_global_model (collected_updates self draws)
                     utcnow] |};
        active_clients := active_clients self |},
     Ok (Success (S (current_round (model_ self)))
           (_evaluate_global_model (collected_updates self draws) utcnow)
           (aggregate (contributions (model_ self)
                         (collected_updates self draws))))) /\
  Forall (fun u => u.1 = global_model (model_ self) /\ (100 <= u.2 < 1000)%Z)
         (contributions (model_ self) (collected_updates self draws)) /\
  map shape (aggregate (contributions (model_ self)
                          (collected_updates self draws)))
  = map shape (global_model (model_ self)).
Proof.
  intros _ _ Hin Hreg Hdraw Hwf.
  set (ups := collected_updates self draws).
  assert (Forall (fun u => u.1 = global_model (model_ self)
                           /\ (100 <= u.2 < 1000)%Z)
                 (contributions (model_ self) ups)) as Hall.
  { unfold contributions. apply Forall_fmap, Forall_forall. intros [id u] Hi.
    apply list_elem_of_filter in Hi as [_ Hi].
    unfold ups, collected_updates in Hi.
    apply list_elem_of_fmap in Hi as ([id' c'] & Heq & _).
    injection Heq as -> ->. cbn. split; [done|]. apply Hdraw. }
  assert ((global_model (model_ self), drawn_size (draws client_id))
            ∈ contributions (model_ self) ups) as Hown.
  { unfold contributions. apply list_elem_of_fmap.
    exists (client_id, _get_client_update self (draws client_id)).
    split; [done|]. apply list_elem_of_filter. split; [done|].
    unfold ups, collected_updates. apply list_elem_of_fmap.
    by exists (client_id, client). }
  destruct (contributions (model_ self) ups) as [|[first size] rest] eqn:Hc.
  { by apply elem_of_nil in Hown. }
  assert (first = global_model (model_ self)) as Hfirst.
  { apply Forall_cons in Hall as [[Hf _] _]. done. }
  assert (federated_training_round (model_ self) ups utcnow
          = ({| global_model := aggregate ((first, size) :: rest);
                clients := clients (model_ self);
                current_round := S (current_round (model_ self));
                performance_history :=
                  performance_history (model_ self)
                  ++ [_evaluate_global_model ups utcnow] |},
             Ok (Success (S (current_round (model_ self)))
                   (_evaluate_global_model ups utcnow)
                   (aggregate ((first, size) :: rest))))) as Hround.
  { rewrite <- Hc. apply (round_success _ _ _ first size rest Hc).
    - rewrite Hc. eapply Forall_impl; [exact Hall|]. intros u [_ Hu]. lia.
    - rewrite Hc. eapply Forall_impl; [exact Hall|]. intros u [Hu _].
      cbn beta. rewrite Hu, Hfirst. split; [done|]. done.
    - by rewrite Hfirst. }
  split; [|split; [done|]].
  - unfold coordinate_training_round. fold (collected_updates self draws).
    fold ups. by rewrite Hround.
  - subst first. cbn [aggregate]. apply list_eq. intros i.
    rewrite !list_lookup_fmap, list_lookup_imap.
    by destruct (global_model (model_ self) !! i).
Qed.

(** **** The results above on the small federation *)

(** An update that carries no metrics. *)
Definition silent_update (weights : list (ndarray Qc)) (size : Z)
  : client_update Qc :=
  {| model_weights := weights; data_size := size; performance := None |}.

Lemma evaluate_without_performance_witness :
  _evaluate_global_model [("a", silent_update [vec [frac 1 1]] 100)] noon
  = {| avg_accuracy := zero;
       avg_loss := Infinity;
       participating_clients :=
         length [("a", silent_update [vec [frac 1 1]] 100)];
       total_samples := 0;
       timestamp := noon |}.
Proof.
  apply (evaluate_without_performance
           [("a", silent_update [vec [frac 1 1]] 100)] noon).
  repeat constructor.
Defined.

Definition empty_updates : list (string * client_update Qc) :=
  [("a", update_of [vec [frac 1 1]] 0 (frac 9 10) (frac 1 10));
   ("b", update_of [vec [frac 0 1]] 0 (frac 1 10) (frac 9 10))].

Lemma round_zero_samples_witness :
  federated_training_round federation empty_updates noon
  = (federation, Raise ZeroDivisionError).
Proof.
  apply (round_zero_samples federation empty_updates noon
           [vec [frac 1 1]] [[vec [frac 0 1]]]).
  - vm_compute. reflexivity.
  - discriminate.
  - vm_compute. reflexivity.
Defined.

Lemma registered_client_is_collected_witness :
  (federated_training_round (register_client untrained (clinic "a"))
     [("a", update_of [vec [frac 1 1]] 100 (frac 9 10) (frac 1 10))] noon).2
    <> Ok (Failed "no_updates") /\
  global_model (register_client untrained (clinic "a")) = global_model untrained /\
  current_round (register_client untrained (clinic "a"))
    = current_round untrained /\
  performance_history (register_client untrained (clinic "a"))
    = performance_history untrained.
Proof.
  apply (registered_client_is_collected untrained (clinic "a")
           [("a", update_of [vec [frac 1 1]] 100 (frac 9 10) (frac 1 10))]
           (update_of [vec [frac 1 1]] 100 (frac 9 10) (frac 1 10)) noon).
  apply list_elem_of_singleton. reflexivity.
Defined.

Lemma round_ignores_unregistered_witness :
  global_model (federated_training_round federation mixed_updates noon).1
  = global_model (federated_training_round federation
                    (filter (registered federation) mixed_updates) noon).1 /\
  current_round (federated_training_round federation mixed_updates noon).1
  = current_round (federated_training_round federation
                     (filter (registered federation) mixed_updates) noon).1 /\
  clients (federated_training_round federation mixed_updates noon).1
  = clients (federated_training_round federation
               (filter (registered federation) mixed_updates) noon).1 /\
  match (federated_training_round federation mixed_updates noon).2,
        (federated_training_round federation
           (filter (registered federation) mixed_updates) noon).2 with
  | Ok (Success r1 _ w1), Ok (Success r2 _ w2) => r1 = r2 /\ w1 = w2
  | Ok (Failed reason1), Ok (Failed reason2) => reason1 = reason2
  | Raise e1, Raise e2 => e1 = e2
  | _, _ => False
  end.
Proof.
  apply (round_ignores_unregistered federation mixed_updates noon).
  split; [repeat constructor; done | reflexivity].
Defined.

Lemma evaluate_closed_form_witness :
  _evaluate_global_model mixed_updates noon
  = {| avg_accuracy :=
         if (0 <? scored_total (scored mixed_updates))%Z then
           div (total (map (fun s => mul (default zero (accuracy s.2))
                                         (of_int s.1))
                           (scored mixed_updates)))
               (of_int (scored_total (scored mixed_updates)))
         else zero;
       avg_loss :=
         if (0 <? scored_total (scored mixed_updates))%Z then
           Finite (div (total (map (fun s => mul (default zero (loss s.2))
                                                 (of_int s.1))
                                   (scored mixed_updates)))
                       (of_int (scored_total (scored mixed_updates))))
         else Infinity;
       participating_clients := length mixed_updates;
       total_samples := scored_total (scored mixed_updates);
       timestamp := noon |}.
Proof.
  apply (evaluate_closed_form mixed_updates noon).
  split; [repeat constructor; done | reflexivity].
Defined.

(** An orchestrator on the federation, with [a] active. *)
Definition coordinator : orchestrator Qc :=
  {| model_ := federation; active_clients := [("a", clinic "a")] |}.

Definition steady_draw (client_id : string) : draw Qc :=
  {| drawn_size := 500; drawn_accuracy := frac 4 5; drawn_loss := frac 1 5 |}.

Lemma coordinated_round_succeeds_witness :
  coordinate_training_round coordinator steady_draw noon
  = ({| model_ :=
          {| global_model :=
               aggregate (contributions (model_ coordinator)
                            (collected_updates coordinator steady_draw));
             clients := clients (model_ coordinator);
             current_round := S (current_round (model_ coordinator));
             performance_history :=
               performance_history (model_ coordinator)
               ++ [_evaluate_global_model
                     (collected_updates coordinator steady_draw) noon] |};
        active_clients := active_clients coordinator |},
     Ok (Success (S (current_round (model_ coordinator)))
           (_evaluate_global_model (collected_updates coordinator steady_draw)
              noon)
           (aggregate (contributions (model_ coordinator)
                         (collected_updates coordinator steady_draw))))) /\
  Forall (fun u => u.1 = global_model (model_ coordinator)
                   /\ (100 <= u.2 < 1000)%Z)
         (contributions (model_ coordinator)
            (collected_updates coordinator steady_draw)) /\
  map shape (aggregate (contributions (model_ coordinator)
                          (collected_updates coordinator steady_draw)))
  = map shape (global_model (model_ coordinator)).
Proof.
  apply (coordinated_round_succeeds coordinator steady_draw noon
           "a" (clinic "a")).
  - repeat constructor. apply not_elem_of_nil.
  - reflexivity.
  - apply list_elem_of_singleton. reflexivity.
  - eexists. vm_compute. reflexivity.
  - intros id. simpl. lia.
  - repeat constructor.
Defined.

End FederatedEHRModel.

(** ** MedicalImageEncryption *)

Module MedicalImageEncryption.

Local Open Scope list_scope.
Local Open Scope N_scope.

(** Python [bytes]. A [str] is held as its UTF-8 bytes, so that it is ASCII
    exactly when every character is below 128, and [str.encode()] keeps the
    characters. *)
Definition bytes : Type := list byte.

(** A number stored into one byte, as C stores into an [unsigned char]. *)
Definition byte_of (n : N) : byte :=
  default x00 (Byte.of_N (n mod 256)).

Definition str_encode (s : string) : bytes := list_byte_of_string s.

Definition is_ascii_char (c : ascii) : bool := N_of_ascii c <? 128.

(** [s.isascii()] *)
Fixpoint isascii (s : string) : bool :=
  match s with
  | EmptyString => true
  | String c s' => is_ascii_char c && isascii s'
  end.

(** *** base64 *)

Definition b64_alphabet : list ascii :=
  list_ascii_of_string
    "ABCDEFGHIJKLMNOPQRSTUVWXYZabcdefghijklmnopqrstuvwxyz0123456789+/".

Definition BASE64_PAD : ascii := "="%char.

(** The character of a 6-bit group. *)
Definition table_b2a_base64 (n : N) : ascii :=
  nth (N.to_nat n) b64_alphabet BASE64_PAD.

Fixpoint index_of (c : ascii) (l : list ascii) (i : N) : option N :=
  match l with
  | [] => None
  | c' :: l' => if Ascii.eqb c c' then Some i else index_of c l' (N.succ i)
  end.

(** The 6-bit group of a character, [None] for a character outside the
    alphabet. *)
Definition table_a2b_base64 (c : ascii) : option N :=
  index_of c b64_alphabet 0.

(** [binascii.b2a_base64(data, newline=False)]: three bytes give four
    characters, and a last group of one or two bytes is padded with [=]. *)
Fixpoint b2a_base64 (data : bytes) : string :=
  match data with
  | [] => EmptyString
  | [b1] =>
      let n1 := Byte.to_N b1 in
      String (table_b2a_base64 (N.shiftr n1 2))
        (String (table_b2a_base64 (N.shiftl (N.land n1 3) 4)) "==")
  | [b1; b2] =>
      let n1 := Byte.to_N b1 in
      let n2 := Byte.to_N b2 in
      String (table_b2a_base64 (N.shiftr n1 2))
        (String (table_b2a_base64
                   (N.lor (N.shiftl (N.land n1 3) 4) (N.shiftr n2 4)))
           (String (table_b2a_base64 (N.shiftl (N.land n2 15) 2)) "="))
  | b1 :: b2 :: b3 :: rest =>
      let n1 := Byte.to_N b1 in
      let n2 := Byte.to_N b2 in
      let n3 := Byte.to_N b3 in
      String (table_b2a_base64 (N.shiftr n1 2))
        (String (table_b2a_base64
                   (N.lor (N.shiftl (N.land n1 3) 4) (N.shiftr n2 4)))
           (String (table_b2a_base64
                      (N.lor (N.shiftl (N.land n2 15) 2) (N.shiftr n3 6)))
              (String (table_b2a_base64 (N.land n3 63)) (b2a_base64 rest))))
  end.

(** [binascii.a2b_base64(text)] as [base64.b64decode] calls it (not strict):
    characters outside the alphabet are skipped; a [=] is skipped too unless
    it completes the padding of a started group, where decoding stops and the
    rest of the text is not read; a text that ends inside a group is refused.
    [quad_pos] is the position in the group of four, [leftchar] the bits not
    yet written, [pads] the padding seen since the last data character. *)
Fixpoint a2b_base64 (text : string) (quad_pos : nat) (leftchar : N)
    (pads : nat) (bin_data : bytes) : result bytes :=
  match text with
  | EmptyString =>
      match quad_pos with
      | O => Ok bin_data
      | _ => Raise BinasciiError
      end
  | String c text' =>
      if Ascii.eqb c BASE64_PAD then
        if (2 <=? quad_pos)%nat then
          if (4 <=? quad_pos + S pads)%nat then Ok bin_data
          else a2b_base64 text' quad_pos leftchar (S pads) bin_data
        else a2b_base64 text' quad_pos leftchar pads bin_data
      else
        match table_a2b_base64 c with
        | None => a2b_base64 text' quad_pos leftchar pads bin_data
        | Some this_ch =>
            match quad_pos with
            | 0%nat => a2b_base64 text' 1 this_ch 0 bin_data
            | 1%nat =>
                a2b_base64 text' 2 (N.land this_ch 15) 0
                  (bin_data
                   ++ [byte_of (N.lor (N.shiftl leftchar 2) (N.shiftr this_ch 4))])
            | 2%nat =>
                a2b_base64 text' 3 (N.land this_ch 3) 0
                  (bin_data
                   ++ [byte_of (N.lor (N.shiftl leftchar 4) (N.shiftr this_ch 2))])
            | _ =>
                a2b_base64 text' 0 0 0
                  (bin_data ++ [byte_of (N.lor (N.shiftl leftchar 6) this_ch)])
            end
        end
  end.

(** [base64.b64encode(data).decode()] *)
Definition b64encode (data : bytes) : string := b2a_base64 data.

(** [base64.b64decode(text)] on a [str]: the text is first encoded as ASCII. *)
Definition b64decode (text : string) : result bytes :=
  if isascii text then a2b_base64 text 0 0 0 []
  else Raise (ValueError "string argument should contain only ASCII characters").

(** *** The encryption class *)

Notation "'let*' x := m 'in' k" := (result_bind m (fun x => k))
  (at level 10, x name, m at level 100, k at level 200, only parsing).

(** [self]: what [__init__] keeps ([self.algorithm] is the AES class). *)
Record self_ : Type := {
  master_key : bytes;
  key_size : nat
}.

Definition __init__ (master_key : bytes) : self_ :=
  {| master_key := master_key; key_size := 256 / 8 |}.

(** The dictionary [encrypt_dicom_image] returns and [decrypt_dicom_image]
    takes: every value it holds is a [str]. *)
Abbreviation package := (gmap string string).

(** [package[key]] *)
Definition getitem (p : package) (key : string) : result string :=
  match p !! key with
  | Some v => Ok v
  | None => Raise KeyError
  end.

(** [hmac.compare_digest(a, b)] on two [str]: both must be ASCII. *)
Definition compare_digest (a b : string) : result bool :=
  if isascii a && isascii b then Ok (String.eqb a b) else Raise TypeError.

(** [_pad_data]: the padding length is between 1 and 16, so it fits a byte. *)
Definition _pad_data (data : bytes) : bytes :=
  let block_size := 16%nat in
  let padding_length := (block_size - length data mod block_size)%nat in
  let padding := replicate padding_length (byte_of (N.of_nat padding_length)) in
  data ++ padding.

(** [padded_data[:-padding_length]]: a stop of [-0] is a stop of 0. *)
Definition slice_to_minus (data : bytes) (n : nat) : bytes :=
  match n with
  | O => []
  | _ => take (length data - n) data
  end.

(** [_unpad_data]: [padded_data[-1]] raises on empty data. *)
Definition _unpad_data (padded_data : bytes) : result bytes :=
  match last padded_data with
  | None => Raise IndexError
  | Some b =>
      let padding_length := N.to_nat (Byte.to_N b) in
      Ok (slice_to_minus padded_data padding_length)
  end.

Definition integrity_failure : exn :=
  ValueError "Image integrity verification failed".

(** *** base64: decoding undoes encoding *)

Definition below (n : nat) : list N := map N.of_nat (seq 0 n).

Lemma forallb_below (n : nat) (P : N -> bool) :
  forallb P (below n) = true -> forall x, x < N.of_nat n -> P x = true.
Proof.
  intros Hall x Hx. apply (proj1 (forallb_forall P (below n)) Hall).
  unfold below. apply in_map_iff. exists (N.to_nat x). split; [lia|].
  apply in_seq. lia.
Qed.

Ltac bools_to_props :=
  repeat match goal with
         | H : (_ <? _) = true |- _ => apply N.ltb_lt in H
         | H : (_ =? _) = true |- _ => apply N.eqb_eq in H
         end.

Lemma byte_of_to_N (b : byte) : byte_of (Byte.to_N b) = b.
Proof.
  unfold byte_of. rewrite N.mod_small.
  - by rewrite Byte.of_to_N.
  - pose proof (Byte.to_N_bounded b). lia.
Qed.

Lemma to_N_below (b : byte) : Byte.to_N b < N.of_nat 256.
Proof. pose proof (Byte.to_N_bounded b). lia. Qed.

(** The characters of the 6-bit groups are not the padding character and
    are mapped back to their group. *)
Lemma table_a2b_b2a (n : N) :
  n < 64 ->
  Ascii.eqb (table_b2a_base64 n) BASE64_PAD = false /\
  table_a2b_base64 (table_b2a_base64 n) = Some n.
Proof.
  intros Hn.
  assert (forallb (fun n =>
            negb (Ascii.eqb (table_b2a_base64 n) BASE64_PAD)
            && bool_decide (table_a2b_base64 (table_b2a_base64 n) = Some n))
          (below 64) = true) as Hall by (vm_compute; reflexivity).
  apply (forallb_below 64 _ Hall) in Hn.
  apply andb_prop in Hn as [Hpad Hidx].
  split; [by apply negb_true_iff|by apply bool_decide_eq_true_1 in Hidx].
Qed.

(** What the groups of one byte are. *)
Lemma groups_of_one (a : N) :
  a < N.of_nat 256 ->
  N.shiftr a 2 < 64 /\ N.shiftl (N.land a 3) 4 < 64 /\ N.land a 63 < 64 /\
  N.shiftl (N.land a 15) 2 < 64 /\
  N.lor (N.shiftl (N.shiftr a 2) 2) (N.shiftr (N.shiftl (N.land a 3) 4) 4) = a /\
  N.lor (N.shiftl (N.shiftr a 4) 4)
        (N.shiftr (N.shiftl (N.land a 15) 2) 2) = a.
Proof.
  intros Ha.
  assert (forallb (fun a =>
            (N.shiftr a 2 <? 64) && (N.shiftl (N.land a 3) 4 <? 64)
            && (N.land a 63 <? 64) && (N.shiftl (N.land a 15) 2 <? 64)
            && (N.lor (N.shiftl (N.shiftr a 2) 2)
                   (N.shiftr (N.shiftl (N.land a 3) 4) 4) =? a)
            && (N.lor (N.shiftl (N.shiftr a 4) 4)
                   (N.shiftr (N.shiftl (N.land a 15) 2) 2) =? a))
          (below 256) = true) as Hall by (vm_compute; reflexivity).
  apply (forallb_below 256 _ Hall) in Ha.
  repeat (apply andb_prop in Ha as [Ha ?]). bools_to_props.
  repeat apply conj; assumption.
Qed.

(** What the groups of two neighbouring bytes are. *)
Lemma groups_of_two (a b : N) :
  a < N.of_nat 256 -> b < N.of_nat 256 ->
  N.lor (N.shiftl (N.land a 3) 4) (N.shiftr b 4) < 64 /\
  N.lor (N.shiftl (N.land a 15) 2) (N.shiftr b 6) < 64 /\
  N.lor (N.shiftl (N.shiftr a 2) 2)
        (N.shiftr (N.lor (N.shiftl (N.land a 3) 4) (N.shiftr b 4)) 4) = a /\
  N.land (N.lor (N.shiftl (N.land a 3) 4) (N.shiftr b 4)) 15 = N.shiftr b 4 /\
  N.lor (N.shiftl (N.shiftr a 4) 4)
        (N.shiftr (N.lor (N.shiftl (N.land a 15) 2) (N.shiftr b 6)) 2) = a /\
  N.lor (N.shiftl (N.land (N.lor (N.shiftl (N.land a 15) 2) (N.shiftr b 6)) 3) 6)
        (N.land b 63) = b.
Proof.
  intros Ha Hb.
  assert (forallb (fun a => forallb (fun b =>
            (N.lor (N.shiftl (N.land a 3) 4) (N.shiftr b 4) <? 64)
            && (N.lor (N.shiftl (N.land a 15) 2) (N.shiftr b 6) <? 64)
            && (N.lor (N.shiftl (N.shiftr a 2) 2)
                  (N.shiftr (N.lor (N.shiftl (N.land a 3) 4) (N.shiftr b 4)) 4)
                =? a)
            && (N.land (N.lor (N.shiftl (N.land a 3) 4) (N.shiftr b 4)) 15
                =? N.shiftr b 4)
            && (N.lor (N.shiftl (N.shiftr a 4) 4)
                  (N.shiftr (N.lor (N.shiftl (N.land a 15) 2) (N.shiftr b 6)) 2)
                =? a)
            && (N.lor (N.shiftl
                         (N.land (N.lor (N.shiftl (N.land a 15) 2) (N.shiftr b 6))
                                 3) 6)
                  (N.land b 63) =? b))
          (below 256)) (below 256) = true) as Hall by (vm_compute; reflexivity).
  apply (forallb_below 256 _ Hall) in Ha.
  apply (forallb_below 256 _ Ha) in Hb.
  repeat (apply andb_prop in Hb as [Hb ?]). bools_to_props.
  repeat apply conj; assumption.
Qed.

(** One data character read by the decoder. *)
Lemma a2b_base64_data (n : N) text quad_pos leftchar pads bin_data :
  n < 64 ->
  a2b_base64 (String (table_b2a_base64 n) text) quad_pos leftchar pads bin_data
  = match quad_pos with
    | 0%nat => a2b_base64 text 1 n 0 bin_data
    | 1%nat =>
        a2b_base64 text 2 (N.land n 15) 0
          (bin_data ++ [byte_of (N.lor (N.shiftl leftchar 2) (N.shiftr n 4))])
    | 2%nat =>
        a2b_base64 text 3 (N.land n 3) 0
          (bin_data ++ [byte_of (N.lor (N.shiftl leftchar 4) (N.shiftr n 2))])
    | _ =>
        a2b_base64 text 0 0 0
          (bin_data ++ [byte_of (N.lor (N.shiftl leftchar 6) n)])
    end.
Proof.
  intros Hn. destruct (table_a2b_b2a n Hn) as [Hpad Hidx].
  cbn [a2b_base64]. by rewrite Hpad, Hidx.
Qed.

Lemma bytes_ind3 (P : bytes -> Prop) :
  P [] -> (forall a, P [a]) -> (forall a b, P [a; b]) ->
  (forall a b c rest, P rest -> P (a :: b :: c :: rest)) ->
  forall data, P data.
Proof.
  intros H0 H1 H2 H3 data.
  assert (forall n data, (length data < n)%nat -> P data) as Hn.
  { clear data. induction n as [|n IH]; intros data Hlen; [lia|].
    destruct data as [|a [|b [|c rest]]]; auto.
    apply H3, IH. simpl in Hlen. lia. }
  apply (Hn (S (length data))). lia.
Qed.

(** The decoder, started between two groups, reads an encoded text back. *)
Lemma a2b_base64_b2a (data bin_data : bytes) :
  a2b_base64 (b2a_base64 data) 0 0 0 bin_data = Ok (bin_data ++ data).
Proof.
  revert bin_data.
  induction data as [|a|a b|a b c rest IH] using bytes_ind3; intros bin_data.
  - simpl. by rewrite app_nil_r.
  - pose proof (groups_of_one _ (to_N_below a)) as (Ha1 & Ha2 & _ & _ & Hfst & _).
    cbn [b2a_base64].
    rewrite (a2b_base64_data _ _ _ _ _ _ Ha1), (a2b_base64_data _ _ _ _ _ _ Ha2).
    rewrite Hfst, byte_of_to_N. reflexivity.
  - pose proof (groups_of_one _ (to_N_below a)) as (Ha1 & _).
    pose proof (groups_of_one _ (to_N_below b)) as (_ & _ & _ & Hb3 & _ & Hsnd).
    pose proof (groups_of_two _ _ (to_N_below a) (to_N_below b))
      as (Hab & _ & Hfst & Hleft & _).
    cbn [b2a_base64].
    rewrite (a2b_base64_data _ _ _ _ _ _ Ha1), (a2b_base64_data _ _ _ _ _ _ Hab),
      (a2b_base64_data _ _ _ _ _ _ Hb3).
    rewrite Hfst, Hleft, Hsnd, !byte_of_to_N, <- app_assoc. reflexivity.
  - pose proof (groups_of_one _ (to_N_below a)) as (Ha1 & _).
    pose proof (groups_of_one _ (to_N_below c)) as (_ & _ & Hc4 & _).
    pose proof (groups_of_two _ _ (to_N_below a) (to_N_below b))
      as (Hab & _ & Hfst & Hleft & _).
    pose proof (groups_of_two _ _ (to_N_below b) (to_N_below c))
      as (_ & Hbc & _ & _ & Hsnd & Hthd).
    cbn [b2a_base64].
    rewrite (a2b_base64_data _ _ _ _ _ _ Ha1), (a2b_base64_data _ _ _ _ _ _ Hab),
      (a2b_base64_data _ _ _ _ _ _ Hbc), (a2b_base64_data _ _ _ _ _ _ Hc4).
    rewrite Hfst, Hleft, Hsnd, Hthd, !byte_of_to_N, IH, <- !app_assoc.
    reflexivity.
Qed.

Lemma table_b2a_base64_ascii (n : N) : is_ascii_char (table_b2a_base64 n) = true.
Proof.
  unfold table_b2a_base64.
  assert (forallb is_ascii_char b64_alphabet = true) as Hall
    by (vm_compute; reflexivity).
  destruct (nth_in_or_default (N.to_nat n) b64_alphabet BASE64_PAD) as [Hin| ->].
  - exact (proj1 (forallb_forall _ _) Hall _ Hin).
  - reflexivity.
Qed.

(** An encoded text is ASCII. *)
Lemma b2a_base64_isascii (data : bytes) : isascii (b2a_base64 data) = true.
Proof.
  induction data as [|a|a b|a b c rest IH] using bytes_ind3;
    cbn [b2a_base64 isascii]; rewrite ?table_b2a_base64_ascii, ?IH; reflexivity.
Qed.

(** [base64.b64decode(base64.b64encode(data).decode()) == data] *)
Lemma b64decode_b64encode (data : bytes) : b64decode (b64encode data) = Ok data.
Proof.
  unfold b64decode, b64encode. by rewrite b2a_base64_isascii, a2b_base64_b2a.
Qed.

(** *** Padding *)

Lemma to_N_byte_of (n : N) : n < 256 -> Byte.to_N (byte_of n) = n.
Proof.
  intros Hn. unfold byte_of. rewrite N.mod_small by done.
  destruct (Byte.of_N n) as [b|] eqn:Hb.
  - by apply Byte.to_of_N.
  - apply Byte.of_N_None_iff in Hb. lia.
Qed.

Definition padding_length_of (data : bytes) : nat :=
  (16 - length data mod 16)%nat.

Lemma padding_length_bounds (data : bytes) :
  (1 <= padding_length_of data <= 16)%nat.
Proof.
  unfold padding_length_of.
  pose proof (Nat.mod_upper_bound (length data) 16). lia.
Qed.

Lemma pad_data_length (data : bytes) :
  length (_pad_data data) = (length data + padding_length_of data)%nat.
Proof. unfold _pad_data. by rewrite length_app, length_replicate. Qed.

(** Padded data is a whole number of blocks, and at least one byte longer. *)
Lemma pad_data_blocks (data : bytes) :
  (length (_pad_data data) mod 16 = 0)%nat /\
  (length data < length (_pad_data data))%nat.
Proof.
  rewrite pad_data_length. pose proof (padding_length_bounds data) as Hb.
  split; [|lia]. unfold padding_length_of in *.
  pose proof (Nat.div_mod_eq (length data) 16) as Hdm.
  pose proof (Nat.mod_upper_bound (length data) 16) as Hlt.
  replace (length data + (16 - length data mod 16))%nat
    with ((1 + length data / 16) * 16)%nat by lia.
  apply Nat.Div0.mod_mul.
Qed.

(** [_unpad_data] undoes [_pad_data]. *)
Lemma unpad_pad_data (data : bytes) : _unpad_data (_pad_data data) = Ok data.
Proof.
  unfold _unpad_data, _pad_data.
  pose proof (padding_length_bounds data) as Hb.
  fold (padding_length_of data).
  destruct (padding_length_of data) as [|n] eqn:Hn; [lia|].
  rewrite replicate_S_end, app_assoc, last_snoc.
  rewrite to_N_byte_of by lia. rewrite Nat2N.id.
  cbn [slice_to_minus]. f_equal.
  rewrite <- app_assoc, <- replicate_S_end.
  apply take_app_length'. rewrite length_app, length_replicate. lia.
Qed.

(** The padding is PKCS7: between 1 and 16 bytes, each holding their number,
    up to a whole number of blocks; data that already ends a block gets a
    full block more. *)
Theorem pad_data_pkcs7 (data : bytes) :
  exists n : nat,
    (1 <= n <= 16)%nat /\
    _pad_data data = data ++ replicate n (byte_of (N.of_nat n)) /\
    Byte.to_N (byte_of (N.of_nat n)) = N.of_nat n /\
    (length (_pad_data data) mod 16 = 0)%nat /\
    ((length data mod 16 = 0)%nat -> n = 16%nat).
Proof.
  exists (padding_length_of data).
  pose proof (padding_length_bounds data) as Hb.
  split; [done|]. split; [done|]. split; [apply to_N_byte_of; lia|].
  split; [apply pad_data_blocks|].
  unfold padding_length_of. intros ->. reflexivity.
Qed.

(** Removing the padding of padded data gives the data back. *)
Theorem unpad_pad_roundtrip (data : bytes) :
  _unpad_data (_pad_data data) = Ok data /\ _pad_data data <> data.
Proof.
  split; [apply unpad_pad_data|].
  intros Heq. apply (f_equal length) in Heq.
  pose proof (pad_data_blocks data) as [_ Hlt]. lia.
Qed.

(** [_unpad_data] checks nothing. On empty data the read of the last byte
    raises [IndexError]; on any other data it returns a proper prefix,
    whatever the bytes are: the data without its last [n] bytes for a last
    byte [n] from 1 to the length, nothing at all for a last byte of 0 or
    above the length. *)
Theorem unpad_data_unchecked (padded_data : bytes) :
  match padded_data with
  | [] => _unpad_data padded_data = Raise IndexError
  | _ :: _ =>
      exists (b : byte) (original_data : bytes),
        last padded_data = Some b /\
        _unpad_data padded_data = Ok original_data /\
        original_data `prefix_of` padded_data /\
        (length original_data < length padded_data)%nat /\
        (if (1 <=? Byte.to_N b) && (Byte.to_N b <=? N.of_nat (length padded_data))
         then length original_data
              = (length padded_data - N.to_nat (Byte.to_N b))%nat
         else original_data = [])
  end.
Proof.
  destruct padded_data as [|b0 rest]; [reflexivity|].
  unfold _unpad_data.
  destruct (last (b0 :: rest)) as [b|] eqn:Hlast.
  2: { by apply last_None in Hlast. }
  exists b. eexists. split; [done|]. split; [reflexivity|].
  set (data := b0 :: rest) in *.
  assert (0 < length data)%nat as Hpos by (simpl; lia).
  unfold slice_to_minus.
  destruct (N.to_nat (Byte.to_N b)) as [|n] eqn:Hn.
  - split; [apply prefix_nil|]. split; [simpl; lia|].
    replace (1 <=? Byte.to_N b) with false; [done|].
    symmetry. apply N.leb_gt. lia.
  - split; [apply prefix_take|]. rewrite length_take. split; [lia|].
    destruct (Byte.to_N b <=? N.of_nat (length data)) eqn:Hle.
    + replace (1 <=? Byte.to_N b) with true by (symmetry; apply N.leb_le; lia).
      cbn [andb]. apply N.leb_le in Hle. lia.
    + rewrite andb_false_r. apply N.leb_gt in Hle.
      replace (length data - S n)%nat with 0%nat by lia. reflexivity.
Qed.

Section Encryption.

(** The primitives of [hashlib], [hmac] and [cryptography]. *)

(** [hashlib.sha256(data).digest()] *)
Variable sha256_digest : bytes -> bytes.
(** [hashlib.pbkdf2_hmac('sha256', password, salt, iterations, dklen)] *)
Variable pbkdf2_hmac_sha256 : bytes -> bytes -> N -> nat -> bytes.
(** [hmac.new(key, msg, hashlib.sha256).hexdigest()] *)
Variable hmac_sha256_hexdigest : bytes -> bytes -> string.
(** [Cipher(AES(key), CBC(iv)).encryptor()], [update(data) + finalize()];
    the constructors raise on a key or an IV of a wrong size, [finalize] on
    data that is not a whole number of blocks. *)
Variable aes_cbc_encrypt : bytes -> bytes -> bytes -> result bytes.
(** The same with [decryptor()]. *)
Variable aes_cbc_decrypt : bytes -> bytes -> bytes -> result bytes.

(** [generate_image_key] *)
Definition generate_image_key (self : self_) (image_id : string) : bytes :=
  let salt := sha256_digest (str_encode image_id) in
  let key := pbkdf2_hmac_sha256 (master_key self) salt 100000 (key_size self) in
  key.

(** [encrypt_dicom_image]. [iv] is what [np.random.bytes(16)] draws and
    [utcnow] what [datetime.utcnow().isoformat()] answers. The handler logs
    and raises the exception again. *)
Definition encrypt_dicom_image (self : self_) (dicom_data : bytes)
    (image_id : string) (iv : bytes) (utcnow : string) : result package :=
  let image_key := generate_image_key self image_id in
  let padded_data := _pad_data dicom_data in
  let* encrypted_data := aes_cbc_encrypt image_key iv padded_data in
  let integrity_hash := hmac_sha256_hexdigest image_key encrypted_data in
  Ok (<["encrypted_data" := b64encode encrypted_data]>
      (<["iv" := b64encode iv]>
      (<["integrity_hash" := integrity_hash]>
      (<["encryption_algorithm" := "AES-256-CBC"]>
      (<["timestamp" := utcnow]>
      (<["image_id" := image_id]> ∅)))))).

(** [decrypt_dicom_image]. The handler logs and raises the exception again. *)
Definition decrypt_dicom_image (self : self_) (encrypted_package : package)
    (image_id : string) : result bytes :=
  let* encrypted_text := getitem encrypted_package "encrypted_data" in
  let* encrypted_data := b64decode encrypted_text in
  let* iv_text := getitem encrypted_package "iv" in
  let* iv := b64decode iv_text in
  let* stored_hash := getitem encrypted_package "integrity_hash" in
  let image_key := generate_image_key self image_id in
  let computed_hash := hmac_sha256_hexdigest image_key encrypted_data in
  let* same := compare_digest stored_hash computed_hash in
  if negb same then Raise integrity_failure
  else
    let* padded_data := aes_cbc_decrypt image_key iv encrypted_data in
    _unpad_data padded_data.

(** What the results below use of the primitives: the derived key has the
    length asked for; with a 32-byte key and a 16-byte IV, AES-CBC encrypts
    whole blocks and decrypts them back; a hex digest is ASCII. *)
Hypothesis pbkdf2_hmac_length : forall password salt iterations dklen,
  length (pbkdf2_hmac_sha256 password salt iterations dklen) = dklen.
Hypothesis aes_cbc_inverse : forall key iv data,
  length key = 32%nat -> length iv = 16%nat ->
  (length data mod 16 = 0)%nat ->
  exists encrypted,
    aes_cbc_encrypt key iv data = Ok encrypted /\
    aes_cbc_decrypt key iv encrypted = Ok data.
Hypothesis hexdigest_isascii : forall key msg,
  isascii (hmac_sha256_hexdigest key msg) = true.

Ltac package_lookup :=
  repeat first [rewrite lookup_insert_eq | rewrite lookup_insert_ne by done].

(** What [encrypt_dicom_image] returns, when it returns. *)
Lemma encrypt_dicom_image_inv self dicom_data image_id iv utcnow pkg :
  encrypt_dicom_image self dicom_data image_id iv utcnow = Ok pkg ->
  exists encrypted_data,
    aes_cbc_encrypt (generate_image_key self image_id) iv (_pad_data dicom_data)
      = Ok encrypted_data /\
    pkg !! "encrypted_data" = Some (b64encode encrypted_data) /\
    pkg !! "iv" = Some (b64encode iv) /\
    pkg !! "integrity_hash"
      = Some (hmac_sha256_hexdigest (generate_image_key self image_id)
                encrypted_data) /\
    pkg !! "encryption_algorithm" = Some "AES-256-CBC" /\
    pkg !! "timestamp" = Some utcnow /\
    pkg !! "image_id" = Some image_id.
Proof.
  unfold encrypt_dicom_image.
  destruct (aes_cbc_encrypt _ iv (_pad_data dicom_data)) as [ct|e] eqn:Henc;
    [|discriminate].
  cbn [result_bind]. intros [= <-]. exists ct.
  repeat split; by package_lookup.
Qed.

(** How [decrypt_dicom_image] runs on a package that has its three fields,
    with texts that decode. *)
Lemma decrypt_dicom_image_run self pkg image_id
    encrypted_text encrypted_data iv_text iv stored_hash :
  pkg !! "encrypted_data" = Some encrypted_text ->
  b64decode encrypted_text = Ok encrypted_data ->
  pkg !! "iv" = Some iv_text ->
  b64decode iv_text = Ok iv ->
  pkg !! "integrity_hash" = Some stored_hash ->
  decrypt_dicom_image self pkg image_id
  = if isascii stored_hash then
      if String.eqb stored_hash
           (hmac_sha256_hexdigest (generate_image_key self image_id)
              encrypted_data)
      then result_bind
             (aes_cbc_decrypt (generate_image_key self image_id) iv
                encrypted_data) _unpad_data
      else Raise integrity_failure
    else Raise TypeError.
Proof.
  intros Htext Hdata Hivt Hiv Hhash.
  unfold decrypt_dicom_image, getitem, compare_digest.
  rewrite Htext; cbn [result_bind]. rewrite Hdata; cbn [result_bind].
  rewrite Hivt; cbn [result_bind]. rewrite Hiv; cbn [result_bind].
  rewrite Hhash; cbn [result_bind]. rewrite hexdigest_isascii, andb_true_r.
  destruct (isascii stored_hash); cbn [result_bind]; [|done].
  by destruct (String.eqb stored_hash _).
Qed.

(** C5. Decrypting the package of [encrypt_dicom_image] with the same image
    id gives the payload back, whatever the payload, the image id and the
    master key are (the IV drawn has 16 bytes). *)
Theorem decrypt_encrypt_roundtrip master_key dicom_data image_id iv utcnow :
  length iv = 16%nat ->
  exists pkg,
    encrypt_dicom_image (__init__ master_key) dicom_data image_id iv utcnow
      = Ok pkg /\
    decrypt_dicom_image (__init__ master_key) pkg image_id = Ok dicom_data.
Proof.
  intros Hiv.
  set (self := __init__ master_key).
  destruct (aes_cbc_inverse (generate_image_key self image_id) iv
              (_pad_data dicom_data)) as (ct & Henc & Hdec).
  { unfold generate_image_key. by rewrite pbkdf2_hmac_length. }
  { done. }
  { apply pad_data_blocks. }
  destruct (encrypt_dicom_image self dicom_data image_id iv utcnow)
    as [pkg|e] eqn:Hpkg.
  - exists pkg. split; [done|].
    apply encrypt_dicom_image_inv in Hpkg
      as (ct' & Henc' & Htext & Hivt & Hhash & _).
    rewrite Henc in Henc'. injection Henc' as <-.
    rewrite (decrypt_dicom_image_run self pkg image_id _ ct _ iv _
               Htext (b64decode_b64encode ct) Hivt (b64decode_b64encode iv)
               Hhash).
    rewrite hexdigest_isascii, String.eqb_refl, Hdec. cbn [result_bind].
    apply unpad_pad_data.
  - unfold encrypt_dicom_image in Hpkg. fold self in Hpkg.
    rewrite Henc in Hpkg. discriminate.
Qed.

(** Data comes out of [decrypt_dicom_image] only past the comparison: the
    stored tag is then the HMAC, under the derived key, of the decoded
    ciphertext, and the data is what AES and the unpadding make of it. *)
Lemma decrypt_dicom_image_authentic self pkg image_id data :
  decrypt_dicom_image self pkg image_id = Ok data ->
  exists encrypted_text encrypted_data iv_text iv padded_data,
    pkg !! "encrypted_data" = Some encrypted_text /\
    b64decode encrypted_text = Ok encrypted_data /\
    pkg !! "iv" = Some iv_text /\
    b64decode iv_text = Ok iv /\
    pkg !! "integrity_hash"
      = Some (hmac_sha256_hexdigest (generate_image_key self image_id)
                encrypted_data) /\
    aes_cbc_decrypt (generate_image_key self image_id) iv encrypted_data
      = Ok padded_data /\
    _unpad_data padded_data = Ok data.
Proof.
  unfold decrypt_dicom_image, getitem, compare_digest.
  destruct (pkg !! "encrypted_data") as [text|] eqn:Htext; [|discriminate].
  cbn [result_bind].
  destruct (b64decode text) as [ct|] eqn:Hct; [|discriminate].
  cbn [result_bind].
  destruct (pkg !! "iv") as [ivt|] eqn:Hivt; [|discriminate].
  cbn [result_bind].
  destruct (b64decode ivt) as [iv|] eqn:Hiv; [|discriminate].
  cbn [result_bind].
  destruct (pkg !! "integrity_hash") as [tag|] eqn:Htag; [|discriminate].
  cbn [result_bind].
  destruct (isascii tag && isascii _); [|discriminate]. cbn [result_bind].
  destruct (String.eqb tag _) eqn:Heq; [|discriminate]. cbn [negb].
  apply String.eqb_eq in Heq as ->.
  destruct (aes_cbc_decrypt _ iv ct) as [padded|] eqn:Hdec; [|discriminate].
  cbn [result_bind]. intros Hun.
  exists text, ct, ivt, iv, padded. repeat apply conj; done.
Qed.

(** The ciphertext field is read through [b64decode] only: two texts that
    decode alike are not told apart. *)
Lemma decrypt_dicom_image_decoded self pkg image_id encrypted_text :
  b64decode encrypted_text
  = result_bind (getitem pkg "encrypted_data") b64decode ->
  decrypt_dicom_image self (<["encrypted_data" := encrypted_text]> pkg) image_id
  = decrypt_dicom_image self pkg image_id.
Proof.
  unfold decrypt_dicom_image, getitem. intros Hsame.
  rewrite lookup_insert_eq. rewrite !lookup_insert_ne by done.
  cbn [result_bind]. rewrite Hsame. unfold getitem.
  by destruct (pkg !! "encrypted_data").
Qed.

(** C6, as the code has it. On a package of [encrypt_dicom_image]: with any
    other tag, [decrypt_dicom_image] raises the integrity [ValueError] (a
    [TypeError] for a tag that is not ASCII); with another ciphertext text it
    raises what [b64decode] raises, or the integrity [ValueError] when the
    decoded bytes do not have the stored tag as their HMAC. And on any
    package, data is returned only when the stored tag is the HMAC of the
    decoded ciphertext. *)
Theorem tampering_raises master_key dicom_data image_id iv utcnow pkg :
  encrypt_dicom_image (__init__ master_key) dicom_data image_id iv utcnow
    = Ok pkg ->
  (forall stored_hash,
     pkg !! "integrity_hash" <> Some stored_hash ->
     decrypt_dicom_image (__init__ master_key)
       (<["integrity_hash" := stored_hash]> pkg) image_id
     = Raise (if isascii stored_hash then integrity_failure else TypeError)) /\
  (forall encrypted_text,
     match b64decode encrypted_text with
     | Raise e =>
         decrypt_dicom_image (__init__ master_key)
           (<["encrypted_data" := encrypted_text]> pkg) image_id
         = Raise e
     | Ok encrypted_data =>
         pkg !! "integrity_hash"
           <> Some (hmac_sha256_hexdigest
                      (generate_image_key (__init__ master_key) image_id)
                      encrypted_data) ->
         decrypt_dicom_image (__init__ master_key)
           (<["encrypted_data" := encrypted_text]> pkg) image_id
         = Raise integrity_failure
     end) /\
  (forall pkg' data,
     decrypt_dicom_image (__init__ master_key) pkg' image_id = Ok data ->
     exists encrypted_text encrypted_data,
       pkg' !! "encrypted_data" = Some encrypted_text /\
       b64decode encrypted_text = Ok encrypted_data /\
       pkg' !! "integrity_hash"
         = Some (hmac_sha256_hexdigest
                   (generate_image_key (__init__ master_key) image_id)
                   encrypted_data)).
Proof.
  intros Hpkg. set (self := __init__ master_key) in *.
  apply encrypt_dicom_image_inv in Hpkg
    as (ct & _ & Htext & Hivt & Hhash & _).
  split; [|split].
  - intros stored_hash Hdiff.
    rewrite (decrypt_dicom_image_run self _ image_id (b64encode ct) ct
               (b64encode iv) iv stored_hash).
    + destruct (isascii stored_hash); [|done].
      destruct (String.eqb stored_hash _) eqn:Heq; [|done].
      apply String.eqb_eq in Heq. rewrite Hhash in Hdiff. congruence.
    + by rewrite lookup_insert_ne.
    + apply b64decode_b64encode.
    + by rewrite lookup_insert_ne.
    + apply b64decode_b64encode.
    + by rewrite lookup_insert_eq.
  - intros encrypted_text.
    destruct (b64decode encrypted_text) as [ct'|e] eqn:Hdec.
    + intros Hdiff.
      rewrite (decrypt_dicom_image_run self _ image_id encrypted_text ct'
                 (b64encode iv) iv
                 (hmac_sha256_hexdigest (generate_image_key self image_id) ct)).
      * rewrite hexdigest_isascii.
        destruct (String.eqb _ _) eqn:Heq; [|done].
        apply String.eqb_eq in Heq. rewrite Hhash in Hdiff. congruence.
      * by rewrite lookup_insert_eq.
      * done.
      * by rewrite lookup_insert_ne.
      * apply b64decode_b64encode.
      * by rewrite lookup_insert_ne.
    + unfold decrypt_dicom_image, getitem. rewrite lookup_insert_eq.
      cbn [result_bind]. by rewrite Hdec.
  - intros pkg' data Hrun.
    apply decrypt_dicom_image_authentic in Hrun
      as (text & ct' & _ & _ & _ & Ht & Hd & _ & _ & Hh & _).
    by exists text, ct'.
Qed.

(** A package that lacks one of the three fields read: [KeyError], from the
    first field that is missing (the fields before it must decode). *)
Theorem decrypt_missing_field self (pkg : package) image_id :
  (pkg !! "encrypted_data" = None ->
   decrypt_dicom_image self pkg image_id = Raise KeyError) /\
  (forall encrypted_text encrypted_data,
     pkg !! "encrypted_data" = Some encrypted_text ->
     b64decode encrypted_text = Ok encrypted_data ->
     pkg !! "iv" = None ->
     decrypt_dicom_image self pkg image_id = Raise KeyError) /\
  (forall encrypted_text encrypted_data iv_text iv,
     pkg !! "encrypted_data" = Some encrypted_text ->
     b64decode encrypted_text = Ok encrypted_data ->
     pkg !! "iv" = Some iv_text ->
     b64decode iv_text = Ok iv ->
     pkg !! "integrity_hash" = None ->
     decrypt_dicom_image self pkg image_id = Raise KeyError).
Proof.
  unfold decrypt_dicom_image, getitem. repeat split.
  - by intros ->.
  - intros text ct -> Hct ->. cbn [result_bind]. by rewrite Hct.
  - intros text ct ivt iv -> Hct -> Hiv ->. cbn [result_bind].
    rewrite Hct. cbn [result_bind]. by rewrite Hiv.
Qed.

(** Only three fields of a package are read. Whatever is written under
    another key, or removed from it, changes nothing: the algorithm name,
    the timestamp and the image id that the package carries are not
    compared with anything, the key comes from the [image_id] argument. *)
Theorem decrypt_reads_three_fields self (pkg : package) image_id key value :
  key <> "encrypted_data" -> key <> "iv" -> key <> "integrity_hash" ->
  decrypt_dicom_image self (<[key := value]> pkg) image_id
    = decrypt_dicom_image self pkg image_id /\
  decrypt_dicom_image self (delete key pkg) image_id
    = decrypt_dicom_image self pkg image_id.
Proof.
  intros H1 H2 H3. unfold decrypt_dicom_image, getitem.
  by rewrite !lookup_insert_ne, !lookup_delete_ne.
Qed.

(** A package is bound to its image id: decrypting it under another image
    id raises the integrity error, unless the key derived from the other id
    gives the ciphertext the very same tag. *)
Theorem decrypt_other_image_id master_key dicom_data image_id other_id iv
    utcnow pkg encrypted_data :
  encrypt_dicom_image (__init__ master_key) dicom_data image_id iv utcnow
    = Ok pkg ->
  aes_cbc_encrypt (generate_image_key (__init__ master_key) image_id) iv
    (_pad_data dicom_data) = Ok encrypted_data ->
  hmac_sha256_hexdigest (generate_image_key (__init__ master_key) other_id)
    encrypted_data
  <> hmac_sha256_hexdigest (generate_image_key (__init__ master_key) image_id)
       encrypted_data ->
  decrypt_dicom_image (__init__ master_key) pkg other_id
  = Raise integrity_failure.
Proof.
  intros Hpkg Henc Hdiff.
  apply encrypt_dicom_image_inv in Hpkg
    as (ct & Henc' & Htext & Hivt & Hhash & _).
  rewrite Henc in Henc'. injection Henc' as <-.
  rewrite (decrypt_dicom_image_run (__init__ master_key) pkg other_id _
             encrypted_data _ iv _
             Htext (b64decode_b64encode _) Hivt (b64decode_b64encode iv) Hhash).
  rewrite hexdigest_isascii.
  destruct (String.eqb _ _) eqn:Heq; [|done].
  apply String.eqb_eq in Heq. congruence.
Qed.

End Encryption.

(** *** An instance of the primitives

    Stand-ins that have the three properties assumed above, to run the
    class on data. *)

Definition demo_sha256 (data : bytes) : bytes := rev data.

Definition demo_pbkdf2 (password salt : bytes) (iterations : N) (dklen : nat)
  : bytes :=
  resize dklen x00 (password ++ salt).

Definition demo_hexdigest (key msg : bytes) : string := b64encode (key ++ msg).

Definition demo_aes (key iv data : bytes) : result bytes :=
  if (length key =? 32)%nat && (length iv =? 16)%nat
     && (length data mod 16 =? 0)%nat
  then Ok (rev data)
  else Raise (ValueError "invalid size").

Lemma demo_pbkdf2_length password salt iterations dklen :
  length (demo_pbkdf2 password salt iterations dklen) = dklen.
Proof. apply length_resize. Qed.

Lemma demo_aes_inverse key iv data :
  length key = 32%nat -> length iv = 16%nat ->
  (length data mod 16 = 0)%nat ->
  exists encrypted,
    demo_aes key iv data = Ok encrypted /\
    demo_aes key iv encrypted = Ok data.
Proof.
  intros Hk Hi Hd. exists (rev data). unfold demo_aes.
  rewrite length_rev, Hk, Hi, Hd. cbn. by rewrite rev_involutive.
Qed.

Lemma demo_hexdigest_isascii key msg : isascii (demo_hexdigest key msg) = true.
Proof. apply b2a_base64_isascii. Qed.

Definition demo_encrypt := encrypt_dicom_image demo_sha256 demo_pbkdf2
                             demo_hexdigest demo_aes.
Definition demo_decrypt := decrypt_dicom_image demo_sha256 demo_pbkdf2
                             demo_hexdigest demo_aes.

Definition sample_key : bytes := list_byte_of_string "master key".
Definition sample_payload : bytes := list_byte_of_string "DICM".
Definition sample_iv : bytes := replicate 16 x01.
Definition sample_time : string := "2024-01-02T12:00:00".

Definition sample_package : package :=
  match demo_encrypt (__init__ sample_key) sample_payload "img-1" sample_iv
          sample_time with
  | Ok pkg => pkg
  | Raise _ => ∅
  end.

Lemma decrypt_encrypt_roundtrip_witness :
  exists pkg,
    demo_encrypt (__init__ sample_key) sample_payload "img-1" sample_iv
      sample_time = Ok pkg /\
    demo_decrypt (__init__ sample_key) pkg "img-1" = Ok sample_payload.
Proof.
  apply (decrypt_encrypt_roundtrip demo_sha256 demo_pbkdf2 demo_hexdigest
           demo_aes demo_aes demo_pbkdf2_length demo_aes_inverse
           demo_hexdigest_isascii sample_key sample_payload "img-1" sample_iv
           sample_time).
  reflexivity.
Defined.

Lemma tampering_raises_witness :
  (forall stored_hash,
     sample_package !! "integrity_hash" <> Some stored_hash ->
     demo_decrypt (__init__ sample_key)
       (<["integrity_hash" := stored_hash]> sample_package) "img-1"
     = Raise (if isascii stored_hash then integrity_failure else TypeError)) /\
  (forall encrypted_text,
     match b64decode encrypted_text with
     | Raise e =>
         demo_decrypt (__init__ sample_key)
           (<["encrypted_data" := encrypted_text]> sample_package) "img-1"
         = Raise e
     | Ok encrypted_data =>
         sample_package !! "integrity_hash"
           <> Some (demo_hexdigest
                      (generate_image_key demo_sha256 demo_pbkdf2
                         (__init__ sample_key) "img-1")
                      encrypted_data) ->
         demo_decrypt (__init__ sample_key)
           (<["encrypted_data" := encrypted_text]> sample_package) "img-1"
         = Raise integrity_failure
     end) /\
  (forall pkg' data,
     demo_decrypt (__init__ sample_key) pkg' "img-1" = Ok data ->
     exists encrypted_text encrypted_data,
       pkg' !! "encrypted_data" = Some encrypted_text /\
       b64decode encrypted_text = Ok encrypted_data /\
       pkg' !! "integrity_hash"
         = Some (demo_hexdigest
                   (generate_image_key demo_sha256 demo_pbkdf2
                      (__init__ sample_key) "img-1")
                   encrypted_data)).
Proof.
  apply (tampering_raises demo_sha256 demo_pbkdf2 demo_hexdigest demo_aes
           demo_aes demo_hexdigest_isascii sample_key sample_payload "img-1"
           sample_iv sample_time sample_package).
  reflexivity.
Defined.

(** A ciphertext text altered in one character can still be accepted. The
    16 bytes of ciphertext end a group of four characters after one byte, so
    the last character before the padding carries four bits that are not
    read: [RA==] and [RB==] decode to the same byte, the HMAC is taken over
    the decoded bytes, and the payload is returned. No stand-in is needed for
    the cause: whatever the primitives, a text that decodes like the stored
    one gives the result of the stored one. *)
Lemma decrypt_accepts_altered_text :
  sample_package !! "encrypted_data" = Some "DAwMDAwMDAwMDAwMTUNJRA==" /\
  "DAwMDAwMDAwMDAwMTUNJRB==" <> "DAwMDAwMDAwMDAwMTUNJRA==" /\
  demo_decrypt (__init__ sample_key)
    (<["encrypted_data" := "DAwMDAwMDAwMDAwMTUNJRB=="]> sample_package) "img-1"
    = Ok sample_payload /\
  b64decode "RB==" = b64decode "RA==" /\
  forall sha256_digest pbkdf2_hmac_sha256 hmac_sha256_hexdigest aes_cbc_decrypt
         self (pkg : package) image_id encrypted_text altered_text,
    pkg !! "encrypted_data" = Some encrypted_text ->
    b64decode altered_text = b64decode encrypted_text ->
    decrypt_dicom_image sha256_digest pbkdf2_hmac_sha256 hmac_sha256_hexdigest
      aes_cbc_decrypt self (<["encrypted_data" := altered_text]> pkg) image_id
    = decrypt_dicom_image sha256_digest pbkdf2_hmac_sha256
        hmac_sha256_hexdigest aes_cbc_decrypt self pkg image_id.
Proof.
  split; [by vm_compute|]. split; [discriminate|].
  split; [by vm_compute|]. split; [by vm_compute|].
  intros sha pbk hm dec self pkg image_id text altered Htext Hsame.
  apply decrypt_dicom_image_decoded. unfold getitem. by rewrite Htext.
Qed.

Lemma decrypt_reads_three_fields_witness :
  demo_decrypt (__init__ sample_key)
    (<["encryption_algorithm" := "none"]> sample_package) "img-1"
    = demo_decrypt (__init__ sample_key) sample_package "img-1" /\
  demo_decrypt (__init__ sample_key)
    (delete "encryption_algorithm" sample_package) "img-1"
    = demo_decrypt (__init__ sample_key) sample_package "img-1".
Proof.
  apply (decrypt_reads_three_fields demo_sha256 demo_pbkdf2 demo_hexdigest
           demo_aes (__init__ sample_key) sample_package "img-1"
           "encryption_algorithm" "none"); discriminate.
Defined.

Definition sample_encrypted : bytes :=
  match demo_aes (generate_image_key demo_sha256 demo_pbkdf2
                    (__init__ sample_key) "img-1")
          sample_iv (_pad_data sample_payload) with
  | Ok encrypted => encrypted
  | Raise _ => []
  end.

Lemma decrypt_other_image_id_witness :
  demo_decrypt (__init__ sample_key) sample_package "img-2"
  = Raise integrity_failure.
Proof.
  apply (decrypt_other_image_id demo_sha256 demo_pbkdf2 demo_hexdigest
           demo_aes demo_aes demo_hexdigest_isascii sample_key sample_payload
           "img-1" "img-2" sample_iv sample_time sample_package
           sample_encrypted).
  - reflexivity.
  - reflexivity.
  - vm_compute. discriminate.
Defined.

End MedicalImageEncryption.

(** ** MedicalImagingAnomalyDetector *)

Module MedicalImagingAnomalyDetector.

(** The values met in the dictionaries of this file. *)
Inductive pyval : Type :=
  | PBool (b : bool)
  | PInt (z : Z)
  | PStr (s : string)
  | PNone.

(** [bool(v)] *)
Definition truthy (v : pyval) : bool :=
  match v with
  | PBool b => b
  | PInt z => negb (z =? 0)%Z
  | PStr EmptyString => false
  | PStr (String _ _) => true
  | PNone => false
  end.

Abbreviation pydict := (gmap string pyval).

(** [bool(d.get(key, False))] *)
Definition flag (d : pydict) (key : string) : bool :=
  truthy (default (PBool false) (d !! key)).

Section Severity.

(** The scores are floats; nothing is assumed of their comparison. *)
Variable num : Type.
(** [a > b] *)
Variable gt : num -> num -> bool.
(** The literals [0.5], [0.3] and [0.15]. *)
Variables lit_0_5 lit_0_3 lit_0_15 : num.

(** [_calculate_severity] *)
Definition _calculate_severity (anomaly_score : num) (access_event : pydict)
  : string :=
  let base_severity := "low" in
  let base_severity :=
    if gt anomaly_score lit_0_5 then "critical"
    else if gt anomaly_score lit_0_3 then "high"
    else if gt anomaly_score lit_0_15 then "medium"
    else base_severity in
  let base_severity :=
    if flag access_event "external_access" then
      if String.eqb base_severity "medium" then "high" else base_severity
    else base_severity in
  let base_severity :=
    if flag access_event "sensitive_data" then
      if String.eqb base_severity "high" || String.eqb base_severity "medium"
      then "critical" else base_severity
    else base_severity in
  base_severity.

(** The order of the four levels. *)
Definition rank (severity : string) : nat :=
  if String.eqb severity "critical" then 3
  else if String.eqb severity "high" then 2
  else if String.eqb severity "medium" then 1
  else 0.

(** The context of an access can only raise the severity its score gives,
    and never from [low]: the result is one of the four levels, at least
    the level of the score alone; with [sensitive_data] set it is [low] or
    [critical], with [external_access] set it is not [medium]; a score that
    gives [low] gives [low] whatever the context. *)
Theorem severity_escalates (anomaly_score : num) (access_event : pydict) :
  _calculate_severity anomaly_score access_event
    ∈ ["low"; "medium"; "high"; "critical"] /\
  rank (_calculate_severity anomaly_score ∅)
    <= rank (_calculate_severity anomaly_score access_event) /\
  (flag access_event "sensitive_data" = true ->
   _calculate_severity anomaly_score access_event ∈ ["low"; "critical"]) /\
  (flag access_event "external_access" = true ->
   _calculate_severity anomaly_score access_event <> "medium") /\
  (_calculate_severity anomaly_score ∅ = "low" ->
   _calculate_severity anomaly_score access_event = "low").
Proof.
  unfold _calculate_severity.
  replace (flag ∅ "external_access") with false by reflexivity.
  replace (flag ∅ "sensitive_data") with false by reflexivity.
  destruct (gt anomaly_score lit_0_5), (gt anomaly_score lit_0_3),
    (gt anomaly_score lit_0_15), (flag access_event "external_access"),
    (flag access_event "sensitive_data"); cbn;
    repeat split; intros; try discriminate; try lia;
    repeat first [apply list_elem_of_here | apply list_elem_of_further].
Qed.

End Severity.

End MedicalImagingAnomalyDetector.

(** ** MedicalImagingSecurityFramework *)

Module MedicalImagingSecurityFramework.

Import MedicalImageEncryption MedicalImagingAnomalyDetector.

Local Open Scope list_scope.

(** *** Tests on bytes *)

(** [data.startswith(prefix)] *)
Fixpoint startswith (data prefix : bytes) {struct prefix} : bool :=
  match prefix, data with
  | [], _ => true
  | p :: prefix', d :: data' => Byte.eqb p d && startswith data' prefix'
  | _ :: _, [] => false
  end.

(** [pattern in data] *)
Fixpoint contains (data pattern : bytes) : bool :=
  startswith data pattern
  || match data with
     | [] => false
     | _ :: data' => contains data' pattern
     end.

(** *** Validation and scan *)

(** The dictionary [_validate_medical_image] returns. *)
Inductive validation : Type :=
  | Valid (format : string) (validation_checks : list string)
  | Invalid (reason : string).

(** [validation_result['valid']] *)
Definition valid (v : validation) : bool :=
  match v with Valid _ _ => true | Invalid _ => false end.

(** [b'DICM'], [b'\x89PNG'] and [b'\xff\xd8\xff'] *)
Definition DICM : bytes := [x44; x49; x43; x4d].
Definition PNG : bytes := [x89; x50; x4e; x47].
Definition JPEG : bytes := [xff; xd8; xff].

(** [_validate_medical_image]; nothing in it raises on [bytes]. *)
Definition _validate_medical_image (image_data : bytes) (metadata : pydict)
  : validation :=
  if startswith image_data DICM || contains (take 1024 image_data) DICM then
    Valid "DICOM" ["format"; "structure"; "metadata"]
  else if startswith image_data PNG || startswith image_data JPEG then
    Valid "Standard Image" ["format"]
  else Invalid "Unsupported image format".

(** The dictionary [_scan_for_malware] returns. *)
Record malware_scan : Type := {
  threat_detected : bool;
  detected_patterns : list string;
  scan_timestamp : string;
  scanner_version : string
}.

(** The patterns are ASCII: a pattern as [bytes] and decoded have the same
    characters. *)
Definition suspicious_patterns : list string :=
  ["<script"; "javascript:"; "eval("; "exec("; "system("; "shell_exec"].

(** The loop of [_scan_for_malware]. *)
Definition scan_patterns (patterns : list string) (image_data : bytes)
  : bool * list string :=
  fold_left
    (fun '(threat_detected, detected_patterns) pattern =>
       if contains image_data (str_encode pattern)
       then (true, detected_patterns ++ [pattern])
       else (threat_detected, detected_patterns))
    patterns (false, []).

(** [_scan_for_malware] *)
Definition _scan_for_malware (image_data : bytes) (utcnow : string)
  : malware_scan :=
  let '(threat_detected, detected_patterns) :=
    scan_patterns suspicious_patterns image_data in
  {| threat_detected := threat_detected;
     detected_patterns := detected_patterns;
     scan_timestamp := utcnow;
     scanner_version := "1.0.0" |}.

(** *** Events *)

(** What [detect_anomaly] returns: its result, or the dictionary of its
    handler, which has [is_anomaly] set to [False] and neither a severity
    nor a score. *)
Inductive anomaly_result (num : Type) : Type :=
  | Detection (is_anomaly : bool) (anomaly_score confidence : num)
      (severity : string) (mse mae : num) (suspicious_features : list string)
      (timestamp : string) (event_id : pyval)
  | DetectionError (error : string) (timestamp : string).
Arguments Detection {num}.
Arguments DetectionError {num}.

(** The [details] of the events the framework logs. *)
Inductive details (num : Type) : Type :=
  | MalwareDetails (scan : malware_scan)
  | UploadDetails (file_size : nat) (modality : pyval) (encrypted : bool)
  | BlockedDetails (anomaly : anomaly_result num)
  | AccessDetails (anomaly_score : num) (access_context : pydict).
Arguments MalwareDetails {num}.
Arguments UploadDetails {num}.
Arguments BlockedDetails {num}.
Arguments AccessDetails {num}.

(** [ImagingSecurityEvent]; a [datetime] is held as its microseconds. *)
Record ImagingSecurityEvent (num : Type) : Type := {
  event_id : string;
  event_type : string;
  severity : string;
  timestamp : Z;
  user_id : string;
  image_id : string;
  event_details : details num;
  action_taken : string
}.
Arguments event_id {num}.
Arguments event_type {num}.
Arguments severity {num}.
Arguments timestamp {num}.
Arguments user_id {num}.
Arguments image_id {num}.
Arguments event_details {num}.
Arguments action_taken {num}.

(** [self]: the encryptor and the events logged so far. *)
Record framework (num : Type) : Type := {
  encryptor : self_;
  security_events : list (ImagingSecurityEvent num)
}.
Arguments encryptor {num}.
Arguments security_events {num}.

(** [_log_security_event], for the dictionaries the framework passes: they
    have no [event_id] and no [action_taken], so the id is the one
    [_generate_event_id] makes and the action is [logged]. *)
Definition _log_security_event {num} (self : framework num)
    (event_type severity user_id image_id : string) (d : details num)
    (generated_id : string) (utcnow : Z) : framework num :=
  let event := {| event_id := generated_id;
                  event_type := event_type;
                  severity := severity;
                  timestamp := utcnow;
                  user_id := user_id;
                  image_id := image_id;
                  event_details := d;
                  action_taken := "logged" |} in
  {| encryptor := encryptor self;
     security_events := security_events self ++ [event] |}.

(** [str(v)], as an f-string formats a value. *)
Definition format (v : pyval) : string :=
  match v with
  | PStr s => s
  | PInt z => pretty z
  | PBool true => "True"
  | PBool false => "False"
  | PNone => "None"
  end.

(** *** What the tests on bytes mean *)

Lemma startswith_prefix (data prefix : bytes) :
  startswith data prefix = true <-> prefix `prefix_of` data.
Proof.
  revert data. induction prefix as [|p prefix IH]; intros data; cbn [startswith].
  - split; [intros _; apply prefix_nil | done].
  - destruct data as [|d data].
    + split; [done|]. intros Hp. by apply prefix_nil_not in Hp.
    + rewrite andb_true_iff, IH. split.
      * intros [Heq Hp]. apply Byte.byte_dec_bl in Heq as ->.
        by apply prefix_cons.
      * intros Hp. pose proof (prefix_cons_inv_1 _ _ _ _ Hp) as ->.
        split; [by apply Byte.byte_dec_lb|]. by eapply prefix_cons_inv_2.
Qed.

(** [pattern in data]: the pattern stands somewhere in the data. *)
Lemma contains_infix (data pattern : bytes) :
  contains data pattern = true <->
  exists before after, data = before ++ pattern ++ after.
Proof.
  induction data as [|d data IH]; cbn [contains].
  - rewrite orb_false_r, startswith_prefix. split.
    + intros [k ->]. by exists [], k.
    + intros (before & after & Heq). symmetry in Heq.
      apply app_eq_nil in Heq as [-> Heq]. apply app_eq_nil in Heq as [-> _].
      done.
  - rewrite orb_true_iff, startswith_prefix, IH. split.
    + intros [[k ->]|(before & after & ->)].
      * by exists [], k.
      * by exists (d :: before), after.
    + intros (before & after & Heq). destruct before as [|b before].
      * left. exists after. done.
      * right. injection Heq as -> ->. by exists before, after.
Qed.

Lemma startswith_app (data more prefix : bytes) :
  startswith data prefix = true -> startswith (data ++ more) prefix = true.
Proof.
  rewrite !startswith_prefix. intros Hp. by apply prefix_app_r.
Qed.

Lemma contains_app (before data after pattern : bytes) :
  contains data pattern = true ->
  contains (before ++ data ++ after) pattern = true.
Proof.
  rewrite !contains_infix. intros (l1 & l2 & ->).
  exists (before ++ l1), (l2 ++ after). by rewrite <- !app_assoc.
Qed.

Lemma startswith_take (n : nat) (data prefix : bytes) :
  length prefix <= n -> startswith (take n data) prefix = startswith data prefix.
Proof.
  revert n data. induction prefix as [|p prefix IH]; intros n data Hn; [done|].
  cbn [length] in Hn. destruct n as [|n]; [lia|].
  destruct data as [|d data]; [done|]. cbn [take startswith].
  rewrite IH by lia. done.
Qed.

(** *** Properties of the validation and of the scan *)

(** Only the first 1024 bytes of an image are looked at, and the metadata
    not at all. *)
Theorem validate_reads_head (image_data : bytes) (metadata other : pydict) :
  _validate_medical_image (take 1024 image_data) metadata
  = _validate_medical_image image_data other.
Proof.
  unfold _validate_medical_image.
  rewrite !startswith_take by (cbn; lia).
  by rewrite take_take, Nat.min_id.
Qed.

(** An image that is accepted stays accepted with anything appended to it,
    and an empty image is refused. *)
Theorem validate_extension (image_data more : bytes) (metadata : pydict) :
  (valid (_validate_medical_image image_data metadata) = true ->
   valid (_validate_medical_image (image_data ++ more) metadata) = true) /\
  _validate_medical_image [] metadata = Invalid "Unsupported image format".
Proof.
  split; [|reflexivity].
  unfold _validate_medical_image.
  destruct (startswith image_data DICM || contains (take 1024 image_data) DICM)
    eqn:Hd.
  - intros _.
    assert (startswith (image_data ++ more) DICM
            || contains (take 1024 (image_data ++ more)) DICM = true) as ->;
      [|done].
    apply orb_true_iff in Hd as [Hd|Hd]; apply orb_true_iff.
    + left. by apply startswith_app.
    + right. rewrite take_app.
      apply (contains_app [] (take 1024 image_data) _ DICM Hd).
  - destruct (startswith image_data PNG || startswith image_data JPEG) eqn:Hs;
      [|done].
    intros _.
    assert (startswith (image_data ++ more) PNG
            || startswith (image_data ++ more) JPEG = true) as Hs'.
    { apply orb_true_iff in Hs as [Hs|Hs]; apply orb_true_iff;
        [left|right]; by apply startswith_app. }
    rewrite Hs'.
    by destruct (startswith (image_data ++ more) DICM || _).
Qed.

Lemma scan_patterns_filter (patterns : list string) (image_data : bytes)
    (threat : bool) (detected : list string) :
  fold_left
    (fun '(threat_detected, detected_patterns) pattern =>
       if contains image_data (str_encode pattern)
       then (true, detected_patterns ++ [pattern])
       else (threat_detected, detected_patterns))
    patterns (threat, detected)
  = (threat
     || negb (forallb (fun p => negb (contains image_data (str_encode p)))
                patterns),
     detected
     ++ List.filter (fun p => contains image_data (str_encode p)) patterns).
Proof.
  revert threat detected.
  induction patterns as [|p patterns IH]; intros threat detected;
    cbn [fold_left forallb List.filter].
  - by rewrite orb_false_r, app_nil_r.
  - destruct (contains image_data (str_encode p)); rewrite IH; cbn.
    + by rewrite orb_true_r, <- app_assoc.
    + done.
Qed.

(** The scan reports the patterns that stand in the data, in the order of
    the list, and a threat exactly when it reports a pattern; what it finds
    in some data it finds in any data holding these. *)
Theorem scan_reports_patterns (image_data before after : bytes) utcnow :
  detected_patterns (_scan_for_malware image_data utcnow)
  = List.filter (fun p => contains image_data (str_encode p)) suspicious_patterns /\
  (threat_detected (_scan_for_malware image_data utcnow) = true <->
   detected_patterns (_scan_for_malware image_data utcnow) <> []) /\
  (forall p, p ∈ detected_patterns (_scan_for_malware image_data utcnow) <->
     p ∈ suspicious_patterns /\
     exists l1 l2, image_data = l1 ++ str_encode p ++ l2) /\
  (forall p, p ∈ detected_patterns (_scan_for_malware image_data utcnow) ->
     p ∈ detected_patterns
           (_scan_for_malware (before ++ image_data ++ after) utcnow)).
Proof.
  assert (forall data,
    detected_patterns (_scan_for_malware data utcnow)
    = List.filter (fun p => contains data (str_encode p)) suspicious_patterns)
    as Hdet.
  { intros data. unfold _scan_for_malware, scan_patterns.
    by rewrite scan_patterns_filter. }
  assert (forall data p,
    p ∈ detected_patterns (_scan_for_malware data utcnow) <->
    p ∈ suspicious_patterns /\ contains data (str_encode p) = true) as Hin.
  { intros data p. rewrite Hdet, list_elem_of_In, filter_In, <- list_elem_of_In.
    done. }
  split; [apply Hdet|]. split; [|split].
  - unfold _scan_for_malware, scan_patterns. rewrite scan_patterns_filter.
    cbn [threat_detected detected_patterns app orb]. clear Hdet Hin.
    induction suspicious_patterns as [|p ps IH]; cbn [forallb List.filter].
    + split; [discriminate|done].
    + destruct (contains image_data (str_encode p)); cbn [negb andb].
      * split; [discriminate|done].
      * apply IH.
  - intros p. rewrite Hin, contains_infix. done.
  - intros p. rewrite !Hin. intros [Hp Hc]. split; [done|].
    by apply contains_app.
Qed.

(** *** Recommendations and dashboard *)

(** [_generate_security_recommendations]. The dictionary of the handler has
    [is_anomaly] set to [False], so its missing severity is never read. *)
Definition _generate_security_recommendations {num}
    (anomaly : anomaly_result num) : list string :=
  match anomaly with
  | Detection true _ _ severity _ _ suspicious_features _ _ =>
      ["Enhanced monitoring recommended for this user"]
      ++ (if bool_decide ("off_hours_access" ∈ suspicious_features)
          then ["Verify legitimate need for off-hours access"] else [])
      ++ (if bool_decide ("external_access" ∈ suspicious_features)
          then ["Additional authentication required for external access"]
          else [])
      ++ (if String.eqb severity "high" || String.eqb severity "critical"
          then ["Consider temporary access restriction";
                "Notify security team immediately"]
          else [])
  | Detection false _ _ _ _ _ _ _ _ => []
  | DetectionError _ _ => []
  end.

(** [(now - then).days]: whole days, rounded down. *)
Definition days_between (now then_ : Z) : Z := (now - then_) / 86400000000.

(** [[e for e in self.security_events if (datetime.utcnow() - e.timestamp).days < 7]]:
    the clock is read anew for each event, [clock i] for the event at [i]. *)
Fixpoint recent_from {num} (clock : nat -> Z) (i : nat)
    (events : list (ImagingSecurityEvent num)) : list (ImagingSecurityEvent num) :=
  match events with
  | [] => []
  | e :: events' =>
      if (days_between (clock i) (timestamp e) <? 7)%Z
      then e :: recent_from clock (S i) events'
      else recent_from clock (S i) events'
  end.

(** [counts[key] = counts.get(key, 0) + 1] over the events. *)
Definition count_by {num} (key : ImagingSecurityEvent num -> string)
    (events : list (ImagingSecurityEvent num)) : gmap string nat :=
  fold_left (fun counts e => <[key e := default 0 (counts !! key e) + 1]> counts)
            events ∅.

Record dashboard : Type := {
  total_events_7_days : nat;
  severity_breakdown : gmap string nat;
  event_type_breakdown : gmap string nat;
  active_threats : nat;
  last_updated : string
}.

(** [get_security_dashboard] *)
Definition get_security_dashboard {num} (self : framework num)
    (clock : nat -> Z) (utcnow : string) : dashboard :=
  let recent_events := recent_from clock 0 (security_events self) in
  {| total_events_7_days := length recent_events;
     severity_breakdown := count_by severity recent_events;
     event_type_breakdown := count_by event_type recent_events;
     active_threats :=
       length (filter (fun e => severity e = "high" \/ severity e = "critical")
                      recent_events);
     last_updated := utcnow |}.

(** Closed decidable statements, proved or refuted by evaluation. *)
Ltac decide_closed := apply (bool_decide_unpack _); vm_compute; exact I.
Ltac refute_closed H :=
  apply (bool_decide_pack _) in H; vm_compute in H; destruct H.

(** [anomaly_result['is_anomaly']] *)
Definition is_anomaly_of {num} (anomaly : anomaly_result num) : bool :=
  match anomaly with
  | Detection is_anomaly _ _ _ _ _ _ _ _ => is_anomaly
  | DetectionError _ _ => false
  end.

(** [anomaly_result['severity'] in ['high', 'critical']], where there is a
    severity. *)
Definition is_severe {num} (anomaly : anomaly_result num) : bool :=
  match anomaly with
  | Detection _ _ _ severity _ _ _ _ _ =>
      String.eqb severity "high" || String.eqb severity "critical"
  | DetectionError _ _ => false
  end.

(** [anomaly_result['severity']] and [anomaly_result['anomaly_score']], which
    the dictionary of the handler does not have. *)
Definition anomaly_severity {num} (anomaly : anomaly_result num)
  : option string :=
  match anomaly with
  | Detection _ _ _ severity _ _ _ _ _ => Some severity
  | DetectionError _ _ => None
  end.

Definition anomaly_score_of {num} (anomaly : anomaly_result num) : option num :=
  match anomaly with
  | Detection _ anomaly_score _ _ _ _ _ _ _ => Some anomaly_score
  | DetectionError _ _ => None
  end.

(** There are recommendations exactly for an anomaly; the first one is then
    the enhanced monitoring, there are at most five, none twice, and the
    restriction of access and the call to the security team are among them
    exactly when the severity is high or critical. *)
Theorem recommendations_shape {num} (anomaly : anomaly_result num) :
  (_generate_security_recommendations anomaly = [] <->
   is_anomaly_of anomaly = false) /\
  (is_anomaly_of anomaly = true ->
   head (_generate_security_recommendations anomaly)
   = Some "Enhanced monitoring recommended for this user") /\
  length (_generate_security_recommendations anomaly) <= 5 /\
  NoDup (_generate_security_recommendations anomaly) /\
  ("Notify security team immediately"
     ∈ _generate_security_recommendations anomaly <->
   is_anomaly_of anomaly = true /\ is_severe anomaly = true) /\
  ("Consider temporary access restriction"
     ∈ _generate_security_recommendations anomaly <->
   is_anomaly_of anomaly = true /\ is_severe anomaly = true).
Proof.
  destruct anomaly as [[] score conf sev mse mae feats ts eid|err ts];
    cbn [_generate_security_recommendations is_anomaly_of is_severe].
  - destruct (bool_decide ("off_hours_access" ∈ feats)),
      (bool_decide ("external_access" ∈ feats)),
      (String.eqb sev "high" || String.eqb sev "critical");
      cbn [app length head];
      (split; [split; discriminate|]);
      (split; [reflexivity|]);
      (split; [lia|]);
      (split; [decide_closed|]);
      split; (split; [intros Hin | intros [_ Hsev]]);
      first [ done | decide_closed | refute_closed Hin ].
  - split; [done|]. split; [discriminate|]. split; [cbn; lia|].
    split; [apply NoDup_nil_2|].
    split; (split; [intros Hin; by apply elem_of_nil in Hin | by intros [? ?]]).
  - split; [done|]. split; [discriminate|]. split; [cbn; lia|].
    split; [apply NoDup_nil_2|].
    split; (split; [intros Hin; by apply elem_of_nil in Hin | by intros [? ?]]).
Qed.

Lemma count_by_from {num} (key : ImagingSecurityEvent num -> string)
    (events : list (ImagingSecurityEvent num)) (counts : gmap string nat) k :
  fold_left (fun counts e => <[key e := default 0 (counts !! key e) + 1]> counts)
            events counts !! k
  = match length (filter (fun e => key e = k) events) with
    | O => counts !! k
    | S n => Some (default 0 (counts !! k) + S n)
    end.
Proof.
  revert counts. induction events as [|e events IH]; intros counts; [done|].
  cbn [fold_left]. rewrite IH, filter_cons.
  destruct (decide (key e = k)) as [<-|Hne].
  - rewrite lookup_insert_eq. cbn [length default].
    destruct (length (filter _ events)); unfold id; f_equal; lia.
  - by rewrite lookup_insert_ne.
Qed.

(** [count_by] counts: a key has the number of the events with this key,
    and no entry when there is none. *)
Lemma count_by_lookup {num} (key : ImagingSecurityEvent num -> string)
    (events : list (ImagingSecurityEvent num)) k :
  count_by key events !! k
  = match length (filter (fun e => key e = k) events) with
    | O => None
    | S n => Some (S n)
    end.
Proof.
  unfold count_by. rewrite count_by_from, lookup_empty.
  by destruct (length _).
Qed.

Lemma recent_from_sublist {num} (clock : nat -> Z) i
    (events : list (ImagingSecurityEvent num)) :
  recent_from clock i events `sublist_of` events.
Proof.
  revert i. induction events as [|e events IH]; intros i; cbn [recent_from].
  - done.
  - destruct (_ <? 7)%Z; [by apply sublist_skip | by apply sublist_cons].
Qed.

(** The dashboard: each breakdown gives, for a severity or a type, the
    number of the recent events that have it; the active threats are the
    entries [high] and [critical] of the severity breakdown together; they
    are at most the recent events, which are at most the events logged. *)
Theorem dashboard_counts {num} (self : framework num) (clock : nat -> Z) utcnow :
  (forall s,
     severity_breakdown (get_security_dashboard self clock utcnow) !! s
     = match length (filter (fun e => severity e = s)
                       (recent_from clock 0 (security_events self))) with
       | O => None
       | S n => Some (S n)
       end) /\
  (forall t,
     event_type_breakdown (get_security_dashboard self clock utcnow) !! t
     = match length (filter (fun e => event_type e = t)
                       (recent_from clock 0 (security_events self))) with
       | O => None
       | S n => Some (S n)
       end) /\
  active_threats (get_security_dashboard self clock utcnow)
  = default 0 (severity_breakdown (get_security_dashboard self clock utcnow)
               !! "high")
    + default 0 (severity_breakdown (get_security_dashboard self clock utcnow)
                 !! "critical") /\
  active_threats (get_security_dashboard self clock utcnow)
  <= total_events_7_days (get_security_dashboard self clock utcnow) /\
  total_events_7_days (get_security_dashboard self clock utcnow)
  <= length (security_events self).
Proof.
  cbn [get_security_dashboard severity_breakdown event_type_breakdown
       active_threats total_events_7_days].
  set (recent := recent_from clock 0 (security_events self)).
  split; [intros s; apply count_by_lookup|].
  split; [intros t; apply count_by_lookup|].
  split; [|split].
  - rewrite !count_by_lookup.
    assert (forall l : list (ImagingSecurityEvent num),
      length (filter (fun e => severity e = "high" \/ severity e = "critical") l)
      = length (filter (fun e => severity e = "high") l)
        + length (filter (fun e => severity e = "critical") l)) as Hsplit.
    { induction l as [|e l IH]; [done|]. rewrite !filter_cons.
      destruct (decide (severity e = "high")) as [Hh|Hh];
        destruct (decide (severity e = "critical")) as [Hc|Hc];
        destruct (decide (severity e = "high" \/ severity e = "critical"))
          as [Ho|Ho]; cbn [length]; try lia; try congruence.
      - exfalso. apply Ho. by left.
      - exfalso. apply Ho. by right.
      - exfalso. by destruct Ho. }
    rewrite Hsplit.
    by destruct (length (filter (fun e => severity e = "high") recent)),
      (length (filter (fun e => severity e = "critical") recent)).
  - apply length_filter.
  - apply sublist_length, recent_from_sublist.
Qed.

(** *** Upload and access *)


(** The dictionaries [secure_image_access] returns. *)
Inductive access_result (num : Type) : Type :=
  | Granted (anomaly_details : anomaly_result num)
      (security_recommendations : list string)
  | Blocked (reason : string) (anomaly_details : anomaly_result num)
      (contact_security : bool)
  | AccessError (error : string) (timestamp : string).
Arguments Granted {num}.
Arguments Blocked {num}.
Arguments AccessError {num}.


(** The same for an access. *)
Record access_draws : Type := {
  access_event_id : string;
  now_access : string;
  logged_event_id : string;
  now_access_event : Z;
  now_access_failure : string
}.

Section Framework.

Variable num : Type.

(** [hashlib.sha256(s.encode()).hexdigest()] *)
Variable sha256_hexdigest : string -> string.
(** The primitives of the encryptor. *)
Variable sha256_digest : bytes -> bytes.
Variable pbkdf2_hmac_sha256 : bytes -> bytes -> N -> nat -> bytes.
Variable hmac_sha256_hexdigest : bytes -> bytes -> string.
Variable aes_cbc_encrypt : bytes -> bytes -> bytes -> result bytes.
Variable aes_cbc_decrypt : bytes -> bytes -> bytes -> result bytes.
(** [str(e)] for the exceptions that are not a [ValueError]. *)
Variable describe : exn -> string.
(** [self.anomaly_detector.detect_anomaly]: it returns a dictionary on every
    event, its own failures included. *)
Variable detect_anomaly : pydict -> anomaly_result num.

(** [str(e)]: a [ValueError] made of one message prints as the message. *)
Definition exn_str (e : exn) : string :=
  match e with
  | ValueError msg => msg
  | _ => describe e
  end.



(** [{'event_id': ..., 'timestamp': ..., 'user_id': ..., 'image_id': ...,
    **access_context}]: the context wins on a key of its own. *)
Definition access_event_of (image_id user_id : string) (access_context : pydict)
    (draws : access_draws) : pydict :=
  access_context
  ∪ <["event_id" := PStr (access_event_id draws)]>
      (<["timestamp" := PStr (now_access draws)]>
      (<["user_id" := PStr user_id]>
      (<["image_id" := PStr image_id]> ∅))).

(** [secure_image_access] *)
Definition secure_image_access (self : framework num) (image_id user_id : string)
    (access_context : pydict) (draws : access_draws)
  : framework num * access_result num :=
  let access_event := access_event_of image_id user_id access_context draws in
  let anomaly := detect_anomaly access_event in
  match anomaly with
  | Detection is_anomaly anomaly_score _ severity _ _ _ _ _ =>
      if is_anomaly
         && (String.eqb severity "high" || String.eqb severity "critical")
      then
        (_log_security_event self "suspicious_access_blocked" severity user_id
           image_id (BlockedDetails anomaly) (logged_event_id draws)
           (now_access_event draws),
         Blocked "Suspicious access pattern detected" anomaly true)
      else
        (_log_security_event self "image_access"
           (if negb is_anomaly then "low" else "medium") user_id image_id
           (AccessDetails anomaly_score access_context) (logged_event_id draws)
           (now_access_event draws),
         Granted anomaly (_generate_security_recommendations anomaly))
  | DetectionError _ _ =>
      (* [is_anomaly] is [False]; building the event to log then reads
         [anomaly_result['anomaly_score']], which is missing *)
      (self, AccessError (exn_str KeyError) (now_access_failure draws))
  end.

(** What the upload uses of the primitives, as the encryptor does. *)
Hypothesis pbkdf2_hmac_length : forall password salt iterations dklen,
  length (pbkdf2_hmac_sha256 password salt iterations dklen) = dklen.
Hypothesis aes_cbc_inverse : forall key iv data,
  length key = 32 -> length iv = 16 ->
  length data mod 16 = 0 ->
  exists encrypted,
    aes_cbc_encrypt key iv data = Ok encrypted /\
    aes_cbc_decrypt key iv encrypted = Ok data.
Hypothesis hexdigest_isascii : forall key msg,
  isascii (hmac_sha256_hexdigest key msg) = true.





(** What the detector answers on the event of an access. *)
Definition detected (image_id user_id : string) (access_context : pydict)
    (draws : access_draws) : anomaly_result num :=
  detect_anomaly (access_event_of image_id user_id access_context draws).

(** The three ways an access ends. It is blocked exactly on an anomaly of
    high or critical severity, and then one [suspicious_access_blocked]
    event is logged, with the severity of the anomaly, for the user and the
    image of the call, with the answer of the detector as details. It
    fails, with nothing logged, exactly when the detector returned its error
    dictionary. Otherwise it is granted, with one [image_access] event
    logged, [medium] on an anomaly and [low] without, with the score and the
    context as details. *)
Theorem access_outcomes (self : framework num) image_id user_id
    (access_context : pydict) draws :
  match (secure_image_access self image_id user_id access_context draws).2 with
  | Granted details_ recommendations =>
      details_ = detected image_id user_id access_context draws /\
      is_anomaly_of details_ && is_severe details_ = false /\
      recommendations = _generate_security_recommendations details_ /\
      exists anomaly_score,
        anomaly_score_of details_ = Some anomaly_score /\
        (secure_image_access self image_id user_id access_context draws).1
        = {| encryptor := encryptor self;
             security_events :=
               security_events self
               ++ [{| event_id := logged_event_id draws;
                      event_type := "image_access";
                      severity :=
                        if is_anomaly_of details_ then "medium" else "low";
                      timestamp := now_access_event draws;
                      user_id := user_id;
                      image_id := image_id;
                      event_details :=
                        AccessDetails anomaly_score access_context;
                      action_taken := "logged" |}] |}
  | Blocked reason details_ contact_security =>
      reason = "Suspicious access pattern detected" /\
      details_ = detected image_id user_id access_context draws /\
      contact_security = true /\
      is_anomaly_of details_ = true /\ is_severe details_ = true /\
      exists severity_,
        anomaly_severity details_ = Some severity_ /\
        (severity_ = "high" \/ severity_ = "critical") /\
        (secure_image_access self image_id user_id access_context draws).1
        = {| encryptor := encryptor self;
             security_events :=
               security_events self
               ++ [{| event_id := logged_event_id draws;
                      event_type := "suspicious_access_blocked";
                      severity := severity_;
                      timestamp := now_access_event draws;
                      user_id := user_id;
                      image_id := image_id;
                      event_details := BlockedDetails details_;
                      action_taken := "logged" |}] |}
  | AccessError error timestamp_ =>
      (exists err ts,
         detected image_id user_id access_context draws = DetectionError err ts) /\
      error = describe KeyError /\
      timestamp_ = now_access_failure draws /\
      (secure_image_access self image_id user_id access_context draws).1 = self
  end.
Proof.
  unfold secure_image_access. fold (detected image_id user_id access_context draws).
  destruct (detected image_id user_id access_context draws)
    as [a score conf sev mse mae feats ts eid|err ts] eqn:Ha.
  - cbn [is_anomaly_of is_severe anomaly_severity anomaly_score_of].
    destruct (a && (String.eqb sev "high" || String.eqb sev "critical")) eqn:Hc;
      cbn [fst snd].
    + apply andb_true_iff in Hc as [-> Hsev].
      repeat (split; [done|]).
      exists sev. split; [done|]. split; [|done].
      apply orb_true_iff in Hsev as [Hs|Hs]; apply String.eqb_eq in Hs; auto.
    + repeat (split; [done|]).
      exists score. split; [done|].
      unfold _log_security_event. by destruct a.
  - cbn [fst snd]. split; [by eexists _, _ | done].
Qed.

(** A caller that puts [event_id], [timestamp], [user_id] and [image_id]
    into the access context decides what the detector is shown: the
    detector is then asked about the context alone, and the outcome of the
    access (granted, blocked or failed, with its details and
    recommendations) is the same for every user and image the call names. *)
Theorem access_decided_by_context (self : framework num) image_id user_id
    other_image other_user (access_context : pydict) draws :
  is_Some (access_context !! "event_id") ->
  is_Some (access_context !! "timestamp") ->
  is_Some (access_context !! "user_id") ->
  is_Some (access_context !! "image_id") ->
  detected image_id user_id access_context draws
    = detect_anomaly access_context /\
  (secure_image_access self image_id user_id access_context draws).2
  = (secure_image_access self other_image other_user access_context draws).2.
Proof.
  intros He Ht Hu Hi.
  assert (forall image user,
            access_event_of image user access_context draws = access_context)
    as Hevent.
  { intros image user. apply map_eq. intros k. unfold access_event_of.
    destruct (access_context !! k) as [v|] eqn:Hk.
    - by apply lookup_union_Some_l.
    - rewrite lookup_union_r by done.
      rewrite !lookup_insert_ne; [apply lookup_empty|..];
        intros <-; rewrite Hk in *; by eapply is_Some_None. }
  split; [unfold detected; by rewrite Hevent|].
  unfold secure_image_access. rewrite !Hevent.
  destruct (detect_anomaly access_context)
    as [a score conf sev mse mae feats ts eid|err ts]; [|done].
  by destruct (a && (String.eqb sev "high" || String.eqb sev "critical")).
Qed.

(** An access that is granted never comes with the advice to restrict the
    access or to notify the security team: the severities that give this
    advice are those for which an anomalous access is blocked. At most three
    recommendations are returned. *)
Theorem granted_access_recommendations (self self' : framework num) image_id
    user_id (access_context : pydict) draws anomaly recommendations :
  secure_image_access self image_id user_id access_context draws
  = (self', Granted anomaly recommendations) ->
  ("Notify security team immediately" ∉ recommendations) /\
  ("Consider temporary access restriction" ∉ recommendations) /\
  length recommendations <= 3.
Proof.
  unfold secure_image_access.
  destruct (detect_anomaly _)
    as [a score conf sev mse mae feats ts eid|err ts]; [|discriminate].
  destruct (a && (String.eqb sev "high" || String.eqb sev "critical")) eqn:Hc;
    [discriminate|].
  intros [= <- <- <-]. cbn [_generate_security_recommendations].
  destruct a; [|repeat split; [apply not_elem_of_nil..|cbn; lia]].
  cbn [andb] in Hc. rewrite Hc.
  destruct (bool_decide ("off_hours_access" ∈ feats)),
    (bool_decide ("external_access" ∈ feats)); cbn [app length];
    (split; [intros Hin; refute_closed Hin|]);
    (split; [intros Hin; refute_closed Hin|lia]).
Qed.

End Framework.

(** *** The framework on data *)


Definition demo_describe (e : exn) : string := "error".

(** A detector that takes an access for an anomaly when a VPN is seen, and
    for a high one when the access is external too. *)
Definition demo_detect (access_event : pydict) : anomaly_result Z :=
  Detection (flag access_event "vpn_detected") 1%Z 1%Z
    (if flag access_event "external_access" then "high" else "medium")
    1%Z 1%Z ["external_access"] "2024-01-02T12:00:00" PNone.


Definition demo_access := secure_image_access Z demo_describe demo_detect.

Definition fresh_framework : framework Z :=
  {| encryptor := __init__ sample_key; security_events := [] |}.



Definition sample_access_draws : access_draws :=
  {| access_event_id := "ba9876543210";
     now_access := "2024-01-03T08:00:00";
     logged_event_id := "00112233aabb";
     now_access_event := 1704268800000000%Z;
     now_access_failure := "2024-01-03T08:00:01" |}.





(** A context that names another user. *)
Definition forged_context : pydict :=
  <["user_id" := PStr "admin"]> (<["vpn_detected" := PBool true]> ∅).

(** A context that names everything the framework would set. *)
Definition full_context : pydict :=
  <["event_id" := PStr "e-0"]> (<["timestamp" := PStr "2020-01-01T00:00:00"]>
  (<["user_id" := PStr "admin"]> (<["image_id" := PStr "img-0"]>
  (<["vpn_detected" := PBool true]> (<["external_access" := PBool true]> ∅))))).

Lemma access_decided_by_context_witness :
  detected Z demo_detect "img-1" "dr-who" full_context sample_access_draws
    = demo_detect full_context /\
  (demo_access fresh_framework "img-1" "dr-who" full_context
     sample_access_draws).2
  = (demo_access fresh_framework "img-2" "dr-no" full_context
       sample_access_draws).2.
Proof.
  apply (access_decided_by_context Z demo_describe demo_detect fresh_framework
           "img-1" "dr-who" "img-2" "dr-no" full_context sample_access_draws).
  - eexists. vm_compute. reflexivity.
  - eexists. vm_compute. reflexivity.
  - eexists. vm_compute. reflexivity.
  - eexists. vm_compute. reflexivity.
Defined.

Lemma granted_access_recommendations_witness :
  ("Notify security team immediately"
     ∉ _generate_security_recommendations
         (demo_detect (access_event_of "img-1" "dr-who" forged_context
                         sample_access_draws))) /\
  ("Consider temporary access restriction"
     ∉ _generate_security_recommendations
         (demo_detect (access_event_of "img-1" "dr-who" forged_context
                         sample_access_draws))) /\
  length (_generate_security_recommendations
            (demo_detect (access_event_of "img-1" "dr-who" forged_context
                            sample_access_draws))) <= 3.
Proof.
  apply (granted_access_recommendations Z demo_describe demo_detect
           fresh_framework
           (demo_access fresh_framework "img-1" "dr-who" forged_context
              sample_access_draws).1
           "img-1" "dr-who" forged_context sample_access_draws
           (demo_detect (access_event_of "img-1" "dr-who" forged_context
                           sample_access_draws))
           (_generate_security_recommendations
              (demo_detect (access_event_of "img-1" "dr-who" forged_context
                              sample_access_draws)))).
  vm_compute. reflexivity.
Defined.

End MedicalImagingSecurityFramework.
